(** * Extended semantic analyzer: quadruple generation for SELECT statements

    A shallow embedding of [src/compiler/semantic/extended_analyzer.py]
    (class [ExtendedSemanticAnalyzer]) together with the data types of
    [src/common/types.py] it uses, followed by the properties of the
    analysis pass.

    Python objects that the analyzer mutates (the analyzer instance, the
    clause-info dictionaries) are threaded explicitly; exceptions are an
    explicit outcome of every call. *)

From stdpp Require Import gmap strings list pretty sorting.

Local Open Scope string_scope.
Local Open Scope list_scope.
Local Set Warnings "-register-all".

(** ** Data types of [common/types.py] *)

(** [class ASTNodeType(Enum)] *)
Inductive ASTNodeType : Set :=
  | SELECT_STMT | COLUMN_LIST | TABLE_NAME | WHERE_CLAUSE | CONDITION
  | IDENTIFIER | LITERAL
  | JOIN_CLAUSE | JOIN_TYPE | ON_CLAUSE
  | GROUP_BY_CLAUSE | HAVING_CLAUSE | AGGREGATE_FUNCTION
  | ORDER_BY_CLAUSE | ORDER_SPEC
  | SUBQUERY
  | TABLE_REF | TABLE_ALIAS.

Global Instance ASTNodeType_eq_dec : EqDecision ASTNodeType.
Proof. solve_decision. Defined.

(** [str(member)] of the enumeration, as an f-string renders it. *)
Definition ASTNodeType_str (t : ASTNodeType) : string :=
  "ASTNodeType." +:+
  match t with
  | SELECT_STMT => "SELECT_STMT" | COLUMN_LIST => "COLUMN_LIST"
  | TABLE_NAME => "TABLE_NAME" | WHERE_CLAUSE => "WHERE_CLAUSE"
  | CONDITION => "CONDITION" | IDENTIFIER => "IDENTIFIER"
  | LITERAL => "LITERAL" | JOIN_CLAUSE => "JOIN_CLAUSE"
  | JOIN_TYPE => "JOIN_TYPE" | ON_CLAUSE => "ON_CLAUSE"
  | GROUP_BY_CLAUSE => "GROUP_BY_CLAUSE" | HAVING_CLAUSE => "HAVING_CLAUSE"
  | AGGREGATE_FUNCTION => "AGGREGATE_FUNCTION"
  | ORDER_BY_CLAUSE => "ORDER_BY_CLAUSE" | ORDER_SPEC => "ORDER_SPEC"
  | SUBQUERY => "SUBQUERY" | TABLE_REF => "TABLE_REF"
  | TABLE_ALIAS => "TABLE_ALIAS"
  end.

(** [@dataclass class ASTNode]: [type], [value : Optional[str] = None],
    [children] (never [None] after [__post_init__]). *)
Inductive ASTNode : Type :=
  | Node (type : ASTNodeType) (value : option string) (children : list ASTNode).

Definition type (n : ASTNode) : ASTNodeType := let 'Node t _ _ := n in t.
Definition value (n : ASTNode) : option string := let 'Node _ v _ := n in v.
Definition children (n : ASTNode) : list ASTNode := let 'Node _ _ c := n in c.

(** The Python values that end up in the fields of a quadruple: [None], a
    [str], or the list object held under [select_info['columns']], whose
    items are column names ([child.value], possibly [None]) and temporaries. *)
Inductive pyval : Type :=
  | PNone
  | PStr (s : string)
  | PList (items : list (option string)).

Global Instance pyval_eq_dec : EqDecision pyval.
Proof. solve_decision. Defined.

Definition of_optional (o : option string) : pyval :=
  match o with Some s => PStr s | None => PNone end.

(** [@dataclass class Quadruple]: the dataclass does not check the declared
    field types, so each field holds whatever the analyzer passes. *)
Record Quadruple : Type := mkQuadruple {
  op : pyval;
  arg1 : pyval;
  arg2 : pyval;
  result : pyval
}.

Global Instance Quadruple_eq_dec : EqDecision Quadruple.
Proof. solve_decision. Defined.

(** [@dataclass class Symbol] *)
Record Symbol : Type := mkSymbol {
  sym_name : option string;
  sym_type : string;
  sym_scope : string;
  sym_line : nat;
  sym_column : nat
}.

(** [class SymbolTable]: the dictionary [symbols], keyed by [symbol.name]. *)
Module SymbolTable.
Definition t : Type := gmap (option string) Symbol.
Definition empty : t := ∅.
Definition add_symbol (symbol : Symbol) (symbols : t) : t :=
  <[sym_name symbol := symbol]> symbols.
Definition lookup (name : option string) (symbols : t) : option Symbol :=
  symbols !! name.
End SymbolTable.

(** Exceptions the pass can raise.  [SemanticError] carries the [message]
    attribute set by [CompilerError.__init__]; the two [TypeError]s are the
    interpreter's: a call with too many positional arguments, and [str.join]
    applied to a sequence with an item that is not a string. *)
Inductive type_error : Set :=
  | too_many_positional_arguments
  | join_item_not_str.

Inductive exn : Type :=
  | SemanticError (message : string)
  | TypeError (why : type_error).

(** ** Analyzer state *)

(** The fields of an [ExtendedSemanticAnalyzer] instance that the pass reads
    or writes.  ([operators] and [aggregate_functions] are constant tables no
    method consults.) *)
Record Analyzer : Type := mkAnalyzer {
  symbol_table : gmap (option string) Symbol;
  quadruples : list Quadruple;
  temp_counter : nat;
  label_counter : nat
}.

(** [ExtendedSemanticAnalyzer.__init__] *)
Definition new_analyzer : Analyzer :=
  {| symbol_table := SymbolTable.empty; quadruples := [];
     temp_counter := 0; label_counter := 0 |}.

(** What a call acts on: the analyzer instance, and two observation
    channels that no method reads back.  [reported] collects the exceptions
    whose failure line the handler of [analyze] prints to the console (the
    other console lines are not modelled).  [issued] is a history variable:
    the names returned by [_generate_temp], in order of generation. *)
Record World : Type := mkWorld {
  self : Analyzer;
  reported : list exn;
  issued : list string
}.

Definition fresh_world : World :=
  {| self := new_analyzer; reported := []; issued := [] |}.

Definition update_self (f : Analyzer → Analyzer) (w : World) : World :=
  {| self := f (self w); reported := reported w; issued := issued w |}.

(** ** Calls: state and exceptions *)

Inductive outcome (A : Type) : Type :=
  | Returned (a : A)
  | Raised (e : exn).
Arguments Returned {A} a.
Arguments Raised {A} e.

Definition M (A : Type) : Type := World → outcome A * World.

Definition ret {A} (a : A) : M A := λ w, (Returned a, w).

Definition raise {A} (e : exn) : M A := λ w, (Raised e, w).

Definition bind {A B} (m : M A) (k : A → M B) : M B :=
  λ w, match m w with
       | (Returned a, w') => k a w'
       | (Raised e, w') => (Raised e, w')
       end.

(** [try: body  except Exception as e: handler(e)]; both exception classes
    above derive from [Exception]. *)
Definition try_except {A} (body : M A) (handler : exn → M A) : M A :=
  λ w, match body w with
       | (Returned a, w') => (Returned a, w')
       | (Raised e, w') => handler e w'
       end.

Notation "x <- m ;; k" := (bind m (λ x, k))
  (at level 100, m at next level, right associativity,
   format "'[v' x  <-  m  ;;  '/' k ']'").
Notation "m ;;; k" := (bind m (λ _, k))
  (at level 100, right associativity,
   format "'[v' m  ;;;  '/' k ']'").

(** [for x in xs: body(x)], where the body updates the local variables [s]. *)
Fixpoint fold_each {A S} (xs : list A) (s : S) (body : S → A → M S) : M S :=
  match xs with
  | [] => ret s
  | x :: xs' => s' <- body s x ;; fold_each xs' s' body
  end.

(** [for x in xs: body(x)] with no local variable carried over. *)
Definition for_each {A} (xs : list A) (body : A → M unit) : M unit :=
  fold_each xs tt (λ _ x, body x).

(** Truth value of an [Optional[str]]: [None] and [''] are false. *)
Definition truthy (o : option string) : bool :=
  match o with
  | Some s => if decide (s = "") then false else true
  | None => false
  end.

(** [f"{v}"] for an [Optional[str]]. *)
Definition format_optional (o : option string) : string :=
  match o with Some s => s | None => "None" end.

(** [sep.join(items)]: every item has to be a [str]. *)
Definition str_join (sep : string) (items : list (option string)) : M string :=
  match mapM id items with
  | Some strs => ret (String.concat sep strs)
  | None => raise (TypeError join_item_not_str)
  end.

(** ** The methods of [ExtendedSemanticAnalyzer] *)

(** [_emit(self, op, arg1, arg2, result)] *)
Definition _emit (op arg1 arg2 result : pyval) : M unit :=
  λ w, (Returned tt,
        update_self (λ a, {| symbol_table := symbol_table a;
                             quadruples := quadruples a ++ [mkQuadruple op arg1 arg2 result];
                             temp_counter := temp_counter a;
                             label_counter := label_counter a |}) w).

(** A call [self._emit(...)]: the positional arguments are bound to the four
    parameters, and any other number of them is a [TypeError] raised before
    the body runs. *)
Definition call_emit (args : list pyval) : M unit :=
  match args with
  | [op; arg1; arg2; result] => _emit op arg1 arg2 result
  | _ => raise (TypeError too_many_positional_arguments)
  end.

Definition temp_name (n : nat) : string := "T" +:+ pretty n.
Definition label_name (n : nat) : string := "L" +:+ pretty n.

(** [_generate_temp(self)] *)
Definition _generate_temp : M string :=
  λ w, let n := S (temp_counter (self w)) in
       (Returned (temp_name n),
        {| self := {| symbol_table := symbol_table (self w);
                      quadruples := quadruples (self w);
                      temp_counter := n;
                      label_counter := label_counter (self w) |};
           reported := reported w;
           issued := issued w ++ [temp_name n] |}).

(** [_generate_label(self)] *)
Definition _generate_label : M string :=
  λ w, let n := S (label_counter (self w)) in
       (Returned (label_name n),
        update_self (λ a, {| symbol_table := symbol_table a;
                             quadruples := quadruples a;
                             temp_counter := temp_counter a;
                             label_counter := n |}) w).

(** [self.symbol_table.add_symbol(symbol)] *)
Definition add_symbol (symbol : Symbol) : M unit :=
  λ w, (Returned tt,
        update_self (λ a, {| symbol_table := SymbolTable.add_symbol symbol (symbol_table a);
                             quadruples := quadruples a;
                             temp_counter := temp_counter a;
                             label_counter := label_counter a |}) w).

(** The dictionary [table_info]. *)
Record table_info : Type := mkTableInfo {
  main_table : option string;
  tables : list (option string);
  aliases : list (string * string)
}.

(** The dictionary [select_info]; [columns] is a list or the string ["*"]. *)
Record select_info : Type := mkSelectInfo {
  columns : pyval;
  aggregates : list (option string * string);
  has_aggregates : bool
}.

(** The dictionary [group_info]. *)
Record group_info : Type := mkGroupInfo {
  group_columns : list (option string);
  has_group_by : bool
}.

(** The dictionary returned by [_analyze_join_condition], with its keys
    ['left'], ['right'] and ['op']. *)
Record join_condition : Type := mkJoinCondition {
  cond_left : string;
  cond_right : string;
  cond_op : string
}.

(** [_analyze_from_clause(self, node)] *)
Definition _analyze_from_clause (node : ASTNode) : M table_info :=
  fold_each (children node)
    {| main_table := None; tables := []; aliases := [] |}
    (λ info child,
       if decide (type child = TABLE_NAME) then
         let table_name := value child in
         add_symbol {| sym_name := table_name; sym_type := "TABLE";
                       sym_scope := "GLOBAL"; sym_line := 0; sym_column := 0 |} ;;;
         ret {| main_table := table_name;
                tables := tables info ++ [table_name];
                aliases := aliases info |}
       else ret info).

(** [_get_aggregate_column(self, agg_node)] *)
Definition _get_aggregate_column (agg_node : ASTNode) : M string :=
  ret "value".

(** [columns.append(x)] when [columns] is a list, [columns = [x]] otherwise. *)
Definition append_column (cols : pyval) (x : option string) : pyval :=
  match cols with
  | PList items => PList (items ++ [x])
  | _ => PList [x]
  end.

(** One iteration of the loop of [_analyze_column_list]. *)
Definition column_list_step (info : select_info) (child : ASTNode) : M select_info :=
  if decide (type child = IDENTIFIER) then
    let column_name := value child in
    if decide (column_name = Some "*") then
      ret {| columns := PStr "*"; aggregates := aggregates info;
             has_aggregates := has_aggregates info |}
    else
      ret {| columns := append_column (columns info) column_name;
             aggregates := aggregates info;
             has_aggregates := has_aggregates info |}
  else if decide (type child = AGGREGATE_FUNCTION) then
    let func_name := value child in
    agg_temp <- _generate_temp ;;
    (if decide (func_name = Some "COUNT") then
       call_emit [PStr "COUNT"; PStr "*"; PNone; PStr agg_temp]
     else
       column_arg <- _get_aggregate_column child ;;
       call_emit [of_optional func_name; PStr column_arg; PNone; PStr agg_temp]) ;;;
    ret {| columns := append_column (columns info) (Some agg_temp);
           aggregates := aggregates info ++ [(func_name, agg_temp)];
           has_aggregates := true |}
  else ret info.

(** [_analyze_column_list(self, node, select_info)] *)
Definition _analyze_column_list (node : ASTNode) (info : select_info) : M select_info :=
  fold_each (children node) info column_list_step.

(** The loop of [_analyze_select_list]: the first [COLUMN_LIST] child is
    analysed and the loop is left ([break]). *)
Fixpoint select_list_loop (cs : list ASTNode) (info : select_info) : M select_info :=
  match cs with
  | [] => ret info
  | child :: cs' =>
      if decide (type child = COLUMN_LIST) then _analyze_column_list child info
      else select_list_loop cs' info
  end.

(** [_analyze_select_list(self, node)] *)
Definition _analyze_select_list (node : ASTNode) : M select_info :=
  select_list_loop (children node)
    {| columns := PList []; aggregates := []; has_aggregates := false |}.

(** [_analyze_join_condition(self, node)] *)
Definition _analyze_join_condition (node : ASTNode) : M join_condition :=
  ret {| cond_left := "table1.id"; cond_right := "table2.id"; cond_op := "EQ" |}.

(** The local variables of [_analyze_join_clause], with the [table_info] it
    appends to. *)
Record join_locals : Type := mkJoinLocals {
  join_table : option string;
  join_cond : option join_condition;
  join_info : table_info
}.

(** [_analyze_join_clause(self, node, table_info)] *)
Definition _analyze_join_clause (node : ASTNode) (info : table_info) : M table_info :=
  locals <- fold_each (children node)
    {| join_table := None; join_cond := None; join_info := info |}
    (λ l child,
       if decide (type child = TABLE_NAME) then
         ret {| join_table := value child;
                join_cond := join_cond l;
                join_info := {| main_table := main_table (join_info l);
                                tables := tables (join_info l) ++ [value child];
                                aliases := aliases (join_info l) |} |}
       else if decide (type child = ON_CLAUSE) then
         c <- _analyze_join_condition child ;;
         ret {| join_table := join_table l; join_cond := Some c;
                join_info := join_info l |}
       else ret l) ;;
  match join_cond locals with
  | Some c =>
      if truthy (join_table locals) then
        join_temp <- _generate_temp ;;
        call_emit [PStr "JOIN"; of_optional (main_table (join_info locals));
                   of_optional (join_table locals); PStr join_temp] ;;;
        call_emit [PStr "ON"; PStr (cond_left c); PStr (cond_right c); PStr (cond_op c)] ;;;
        ret (join_info locals)
      else ret (join_info locals)
  | None => ret (join_info locals)
  end.

(** [_analyze_join_clauses(self, node, table_info)] *)
Definition _analyze_join_clauses (node : ASTNode) (info : table_info) : M table_info :=
  fold_each (children node) info
    (λ info child,
       if decide (type child = JOIN_CLAUSE) then _analyze_join_clause child info
       else ret info).

(** [_analyze_condition(self, node)]: the call of [_emit] passes five
    arguments. *)
Definition _analyze_condition (node : ASTNode) : M (option string) :=
  condition_temp <- _generate_temp ;;
  call_emit [PStr "CONDITION"; PStr "column"; PStr ">"; PStr "value";
             PStr condition_temp] ;;;
  ret (Some condition_temp).

(** [_analyze_where_clause(self, node)] *)
Definition _analyze_where_clause (node : ASTNode) : M unit :=
  for_each (children node)
    (λ child,
       if decide (type child = WHERE_CLAUSE) then
         condition_temp <- _analyze_condition child ;;
         if truthy condition_temp then
           call_emit [PStr "WHERE"; of_optional condition_temp; PNone; PNone]
         else ret tt
       else ret tt).

(** [_analyze_group_by_clause(self, node)] *)
Definition _analyze_group_by_clause (node : ASTNode) : M group_info :=
  fold_each (children node)
    {| group_columns := []; has_group_by := false |}
    (λ info child,
       if decide (type child = GROUP_BY_CLAUSE) then
         let cols :=
           foldl (λ cols grandchild,
                    if decide (type grandchild = IDENTIFIER)
                    then cols ++ [value grandchild] else cols)
                 (group_columns info) (children child) in
         match cols with
         | [] => ret {| group_columns := cols; has_group_by := true |}
         | _ :: _ =>
             group_temp <- _generate_temp ;;
             joined <- str_join "," cols ;;
             call_emit [PStr "GROUP_BY"; PStr joined; PNone; PStr group_temp] ;;;
             ret {| group_columns := cols; has_group_by := true |}
         end
       else ret info).

(** [_analyze_having_clause(self, node)] *)
Definition _analyze_having_clause (node : ASTNode) : M unit :=
  for_each (children node)
    (λ child,
       if decide (type child = HAVING_CLAUSE) then
         having_temp <- _analyze_condition child ;;
         if truthy having_temp then
           call_emit [PStr "HAVING"; of_optional having_temp; PNone; PNone]
         else ret tt
       else ret tt).

(** The direction of one [ORDER_SPEC] node: ["ASC"] unless an identifier child
    says ["ASC"] or ["DESC"]; the last such child decides. *)
Definition order_direction (spec : ASTNode) : string :=
  foldl (λ direction spec_child,
           if decide (type spec_child = IDENTIFIER) then
             match value spec_child with
             | Some v => if decide (v = "ASC" ∨ v = "DESC") then v else direction
             | None => direction
             end
           else direction)
        "ASC" (children spec).

(** The list [order_specs] built for one [ORDER_BY_CLAUSE] node. *)
Definition order_specs (clause : ASTNode) : list string :=
  foldl (λ specs grandchild,
           if decide (type grandchild = ORDER_SPEC) then
             specs ++ [format_optional (value grandchild) +:+ " "
                         +:+ order_direction grandchild]
           else specs)
        [] (children clause).

(** [_analyze_order_by_clause(self, node)] *)
Definition _analyze_order_by_clause (node : ASTNode) : M unit :=
  for_each (children node)
    (λ child,
       if decide (type child = ORDER_BY_CLAUSE) then
         match order_specs child with
         | [] => ret tt
         | specs =>
             order_temp <- _generate_temp ;;
             call_emit [PStr "ORDER_BY"; PStr (String.concat "," specs); PNone;
                        PStr order_temp]
         end
       else ret tt).

(** [_analyze_select_statement(self, node)] *)
Definition _analyze_select_statement (node : ASTNode) : M unit :=
  call_emit [PStr "BEGIN"; PNone; PNone; PNone] ;;;
  table_info <- _analyze_from_clause node ;;
  select_info <- _analyze_select_list node ;;
  table_info <- _analyze_join_clauses node table_info ;;
  _analyze_where_clause node ;;;
  group_info <- _analyze_group_by_clause node ;;
  _analyze_having_clause node ;;;
  _analyze_order_by_clause node ;;;
  result_temp <- _generate_temp ;;
  call_emit [PStr "SELECT"; columns select_info;
             of_optional (main_table table_info); PStr result_temp] ;;;
  call_emit [PStr "OUTPUT"; PStr result_temp; PNone; PNone] ;;;
  call_emit [PStr "END"; PNone; PNone; PNone].

(** The three assignments that open [analyze]. *)
Definition reset_pass : M unit :=
  λ w, (Returned tt,
        update_self (λ a, {| symbol_table := symbol_table a; quadruples := [];
                             temp_counter := 0; label_counter := 0 |}) w).

(** [return self.quadruples] *)
Definition get_quadruples : M (list Quadruple) :=
  λ w, (Returned (quadruples (self w)), w).

(** The [print] of the handler: the failure is reported on the console. *)
Definition report (e : exn) : M unit :=
  λ w, (Returned tt,
        {| self := self w; reported := reported w ++ [e]; issued := issued w |}).

(** [analyze(self, ast)] *)
Definition analyze (ast : ASTNode) : M (list Quadruple) :=
  reset_pass ;;;
  try_except
    ((if decide (type ast = SELECT_STMT) then _analyze_select_statement ast
      else raise (SemanticError ("Unsupported statement type: "
                                   +:+ ASTNodeType_str (type ast)))) ;;;
     get_quadruples)
    (λ e, report e ;;; ret []).

(** The value a call hands to its caller, if it returns. *)
Definition returned {A} (r : outcome A * World) : option A :=
  match r.1 with Returned a => Some a | Raised _ => None end.

(** ** Statements, as trees

    The first two are test cases of [test_extended_semantic_analyzer]; the
    others exercise the clauses one at a time. *)

Definition leaf (t : ASTNodeType) (v : string) : ASTNode := Node t (Some v) [].

(** [SELECT name FROM students;] *)
Definition scenario1 : ASTNode :=
  Node SELECT_STMT None
    [Node COLUMN_LIST None [leaf IDENTIFIER "name"]; leaf TABLE_NAME "students"].

(** [SELECT COUNT( * ), AVG(grade) FROM students;] *)
Definition scenario2 : ASTNode :=
  Node SELECT_STMT None
    [Node COLUMN_LIST None
       [leaf AGGREGATE_FUNCTION "COUNT"; leaf AGGREGATE_FUNCTION "AVG"];
     leaf TABLE_NAME "students"].

(** [SELECT name FROM students WHERE age > 18;] *)
Definition select_with_where : ASTNode :=
  Node SELECT_STMT None
    [Node COLUMN_LIST None [leaf IDENTIFIER "name"];
     leaf TABLE_NAME "students";
     Node WHERE_CLAUSE None
       [Node CONDITION (Some ">") [leaf IDENTIFIER "age"; leaf LITERAL "18"]]].

(** [SELECT major, COUNT( * ) FROM students GROUP BY major HAVING COUNT( * ) > 1;] *)
Definition select_with_having : ASTNode :=
  Node SELECT_STMT None
    [Node COLUMN_LIST None [leaf IDENTIFIER "major"; leaf AGGREGATE_FUNCTION "COUNT"];
     leaf TABLE_NAME "students";
     Node GROUP_BY_CLAUSE None [leaf IDENTIFIER "major"];
     Node HAVING_CLAUSE None [Node CONDITION (Some ">") []]].

(** [SELECT name, COUNT( * ), * FROM students;] *)
Definition select_columns_then_wildcard : ASTNode :=
  Node SELECT_STMT None
    [Node COLUMN_LIST None
       [leaf IDENTIFIER "name"; leaf AGGREGATE_FUNCTION "COUNT"; leaf IDENTIFIER "*"];
     leaf TABLE_NAME "students"].

(** [SELECT *, name FROM students;] *)
Definition select_wildcard_then_column : ASTNode :=
  Node SELECT_STMT None
    [Node COLUMN_LIST None [leaf IDENTIFIER "*"; leaf IDENTIFIER "name"];
     leaf TABLE_NAME "students"].

(** [SELECT * FROM orders JOIN customers ON orders.cid = customers.id;] *)
Definition select_with_join : ASTNode :=
  Node SELECT_STMT None
    [Node COLUMN_LIST None [leaf IDENTIFIER "*"];
     leaf TABLE_NAME "orders";
     Node JOIN_CLAUSE None
       [leaf JOIN_TYPE "INNER"; leaf TABLE_NAME "customers";
        Node ON_CLAUSE None [Node CONDITION (Some "=") []]]].

(** A join clause whose table-name node carries no name. *)
Definition select_with_unnamed_join : ASTNode :=
  Node SELECT_STMT None
    [leaf TABLE_NAME "orders";
     Node JOIN_CLAUSE None
       [Node TABLE_NAME None []; Node ON_CLAUSE None []]].

(** [SELECT name;] *)
Definition select_without_from : ASTNode :=
  Node SELECT_STMT None [Node COLUMN_LIST None [leaf IDENTIFIER "name"]].

(** A [GROUP BY] whose identifier node carries no name. *)
Definition select_group_by_unnamed : ASTNode :=
  Node SELECT_STMT None
    [Node COLUMN_LIST None [leaf IDENTIFIER "major"];
     Node GROUP_BY_CLAUSE None [Node IDENTIFIER None []]].

(** ** Vocabulary of the properties *)

(** A call relates the world it starts in to the world it leaves by [R]. *)
Definition preserves (R : relation World) {A} (m : M A) : Prop :=
  ∀ w, R w (m w).2.

(** The names [T(n+1) .. T(n+k)]. *)
Definition temps_from (n k : nat) : list string := temp_name <$> seq (S n) k.

(** A call only appends to the quadruple buffer and to the history of
    temporaries, moves the temporary counter forward by the number of names
    it issued, and leaves the label counter and the console alone. *)
Definition extends (w w' : World) : Prop :=
  label_counter (self w') = label_counter (self w) ∧
  reported w' = reported w ∧
  (∃ qs, quadruples (self w') = quadruples (self w) ++ qs) ∧
  ∃ k, temp_counter (self w') = temp_counter (self w) + k ∧
       issued w' = issued w ++ temps_from (temp_counter (self w)) k.

(** A call leaves the symbol table as it was. *)
Definition same_symbols (w w' : World) : Prop :=
  symbol_table (self w') = symbol_table (self w).

(** A call returns, whatever world it starts in. *)
Definition never_raises {A} (m : M A) : Prop := ∀ w, ∃ a, (m w).1 = Returned a.

(** Two worlds that agree on the quadruple buffer and on both counters; the
    symbol table, the console and the history may differ. *)
Definition same_pass (w1 w2 : World) : Prop :=
  quadruples (self w1) = quadruples (self w2) ∧
  temp_counter (self w1) = temp_counter (self w2) ∧
  label_counter (self w1) = label_counter (self w2).

(** The outcome of a call, and the buffer and counters it leaves, depend on
    the buffer and the counters only. *)
Definition respects {A} (m : M A) : Prop :=
  ∀ w1 w2, same_pass w1 w2 →
    (m w1).1 = (m w2).1 ∧ same_pass (m w1).2 (m w2).2.

(** The world in which the [try] block of [analyze] starts. *)
Definition start_of_pass (w : World) : World := (reset_pass w).2.

(** The clauses that [_analyze_select_statement] analyses after the joins. *)
Definition later_clauses (node : ASTNode) : M unit :=
  _analyze_where_clause node ;;;
  group_info <- _analyze_group_by_clause node ;;
  _analyze_having_clause node ;;;
  _analyze_order_by_clause node.

(** The last four lines of [_analyze_select_statement]. *)
Definition finish (si : select_info) (ti : table_info) : M unit :=
  result_temp <- _generate_temp ;;
  call_emit [PStr "SELECT"; columns si; of_optional (main_table ti);
             PStr result_temp] ;;;
  call_emit [PStr "OUTPUT"; PStr result_temp; PNone; PNone] ;;;
  call_emit [PStr "END"; PNone; PNone; PNone].

(** The quadruples that frame every returned sequence. *)
Definition BEGIN : Quadruple := mkQuadruple (PStr "BEGIN") PNone PNone PNone.
Definition END : Quadruple := mkQuadruple (PStr "END") PNone PNone PNone.
Definition SELECT (cols table : pyval) (t : string) : Quadruple :=
  mkQuadruple (PStr "SELECT") cols table (PStr t).
Definition OUTPUT (t : string) : Quadruple :=
  mkQuadruple (PStr "OUTPUT") (PStr t) PNone PNone.

(** Every exception a call can raise satisfies [E]. *)
Definition raises_only (E : exn → Prop) {A} (m : M A) : Prop :=
  ∀ w e, (m w).1 = Raised e → E e.

Definition is_TypeError (e : exn) : Prop := ∃ why, e = TypeError why.

(** The column list that [_analyze_select_list] analyses: the first
    [COLUMN_LIST] child. *)
Definition first_column_list (node : ASTNode) : option ASTNode :=
  head (filter (λ c, type c = COLUMN_LIST) (children node)).

(** The aggregate-function nodes of that column list, in order. *)
Definition aggregate_nodes (node : ASTNode) : list ASTNode :=
  match first_column_list node with
  | Some cl => filter (λ c, type c = AGGREGATE_FUNCTION) (children cl)
  | None => []
  end.

(** The quadruple of one aggregate function: [COUNT] counts ["*"], any other
    function is applied to the placeholder column ["value"]. *)
Definition aggregate_quadruple (func : option string) (t : string) : Quadruple :=
  if decide (func = Some "COUNT")
  then mkQuadruple (PStr "COUNT") (PStr "*") PNone (PStr t)
  else mkQuadruple (of_optional func) (PStr "value") PNone (PStr t).

(** The quadruples of a list of aggregate nodes when [n] temporaries have
    been issued before. *)
Definition aggregate_quadruples (n : nat) (aggs : list ASTNode) : list Quadruple :=
  imap (λ i c, aggregate_quadruple (value c) (temp_name (S (n + i)))) aggs.

(** The main table: the name on the last [TABLE_NAME] child. *)
Definition main_table_of (node : ASTNode) : option string :=
  last (filter (λ c, type c = TABLE_NAME) (children node)) ≫= value.

(** The table joined by a join clause: the name on its last [TABLE_NAME]
    child. *)
Definition joined_table (j : ASTNode) : option string :=
  last (filter (λ c, type c = TABLE_NAME) (children j)) ≫= value.

(** The join clauses for which quadruples are emitted: a joined table with
    a non-empty name, and an [ON_CLAUSE] child. *)
Definition emits_join (j : ASTNode) : Prop :=
  type j = JOIN_CLAUSE ∧ truthy (joined_table j) = true ∧
  Exists (λ c, type c = ON_CLAUSE) (children j).

Global Instance emits_join_dec j : Decision (emits_join j).
Proof. unfold emits_join. apply _. Defined.

(** The two quadruples of a join clause. *)
Definition JOIN (main joined : option string) (t : string) : Quadruple :=
  mkQuadruple (PStr "JOIN") (of_optional main) (of_optional joined) (PStr t).
Definition ON : Quadruple :=
  mkQuadruple (PStr "ON") (PStr "table1.id") (PStr "table2.id") (PStr "EQ").

(** The quadruples of a list of join clauses when [n] temporaries have been
    issued before. *)
Definition join_quadruples (main : option string) (n : nat) (js : list ASTNode)
    : list Quadruple :=
  concat (imap (λ i j, [JOIN main (joined_table j) (temp_name (S (n + i))); ON]) js).

(** Neither a [JOIN] nor an [ON] quadruple. *)
Definition not_join (q : Quadruple) : Prop :=
  op q ≠ PStr "JOIN" ∧ op q ≠ PStr "ON".

(** A call appends to the buffer only quadruples that satisfy [P]. *)
Definition appends_only (P : Quadruple → Prop) (w w' : World) : Prop :=
  ∃ qs, quadruples (self w') = quadruples (self w) ++ qs ∧ Forall P qs.

(** Every identifier under a [GROUP_BY_CLAUSE] child carries a name. *)
Definition group_by_named (node : ASTNode) : Prop :=
  Forall (λ c, type c = GROUP_BY_CLAUSE →
               Forall (λ g, type g = IDENTIFIER → is_Some (value g)) (children c))
         (children node).

(** A child after which the column specification stays the wildcard: not an
    aggregate function, and not an identifier other than ["*"]. *)
Definition keeps_wildcard (c : ASTNode) : Prop :=
  type c ≠ AGGREGATE_FUNCTION ∧ (type c = IDENTIFIER → value c = Some "*").

(** ** Further vocabulary *)

(** [ASTNode.add_child]: the child is appended to the list [children]; the
    node after the call is the value of this function. *)
Definition add_child (node child : ASTNode) : ASTNode :=
  Node (type node) (value node) (children node ++ [child]).

(** The kinds of children that at least one clause routine of
    [_analyze_select_statement] looks for. *)
Definition clause_kind (t : ASTNodeType) : bool :=
  match t with
  | TABLE_NAME | COLUMN_LIST | JOIN_CLAUSE | WHERE_CLAUSE
  | GROUP_BY_CLAUSE | HAVING_CLAUSE | ORDER_BY_CLAUSE => true
  | _ => false
  end.

(** The symbol that [_analyze_from_clause] registers for a table name. *)
Definition table_symbol (name : option string) : Symbol :=
  {| sym_name := name; sym_type := "TABLE"; sym_scope := "GLOBAL";
     sym_line := 0; sym_column := 0 |}.

(** The names on the [TABLE_NAME] children of a node, in order. *)
Definition table_names (node : ASTNode) : list (option string) :=
  value <$> filter (λ c, type c = TABLE_NAME) (children node).

(** The entries of the column list when it holds no wildcard: the name of
    each identifier and, for each aggregate function, the temporary issued
    for it, [n] temporaries having been issued before. *)
Fixpoint column_entries (n : nat) (cs : list ASTNode) : list (option string) :=
  match cs with
  | [] => []
  | c :: cs' =>
      if decide (type c = IDENTIFIER) then value c :: column_entries n cs'
      else if decide (type c = AGGREGATE_FUNCTION)
           then Some (temp_name (S n)) :: column_entries (S n) cs'
           else column_entries n cs'
  end.

(** An identifier with value ["*"]. *)
Definition is_wildcard (c : ASTNode) : Prop :=
  type c = IDENTIFIER ∧ value c = Some "*".

Definition is_group_by (q : Quadruple) : Prop := op q = PStr "GROUP_BY".
Definition is_order_by (q : Quadruple) : Prop := op q = PStr "ORDER_BY".

Definition GROUP_BY (cols t : string) : Quadruple :=
  mkQuadruple (PStr "GROUP_BY") (PStr cols) PNone (PStr t).
Definition ORDER_BY (specs t : string) : Quadruple :=
  mkQuadruple (PStr "ORDER_BY") (PStr specs) PNone (PStr t).

(** The names on the identifier children of a [GROUP_BY_CLAUSE] node. *)
Definition group_by_names (g : ASTNode) : list (option string) :=
  value <$> filter (λ c, type c = IDENTIFIER) (children g).

(** The direction words among the children of an [ORDER_SPEC] node: the
    values of its identifier children that are ["ASC"] or ["DESC"]. *)
Definition direction_words (spec : ASTNode) : list string :=
  omap (λ c, if decide (type c = IDENTIFIER) then
               match value c with
               | Some v => if decide (v = "ASC" ∨ v = "DESC") then Some v else None
               | None => None
               end
             else None)
       (children spec).

(** The order-by clauses for which a quadruple is emitted: those with an
    [ORDER_SPEC] child. *)
Definition emits_order (c : ASTNode) : Prop :=
  type c = ORDER_BY_CLAUSE ∧ Exists (λ g, type g = ORDER_SPEC) (children c).

Global Instance emits_order_dec c : Decision (emits_order c).
Proof. unfold emits_order. apply _. Defined.

(** [SELECT name, grade FROM students ORDER BY grade DESC;] *)
Definition scenario4 : ASTNode :=
  Node SELECT_STMT None
    [Node COLUMN_LIST None [leaf IDENTIFIER "name"; leaf IDENTIFIER "grade"];
     leaf TABLE_NAME "students";
     Node ORDER_BY_CLAUSE None
       [Node ORDER_SPEC (Some "grade") [leaf IDENTIFIER "DESC"]]].

(** [SELECT major, COUNT( * ) FROM students GROUP BY major;] *)
Definition scenario3 : ASTNode :=
  Node SELECT_STMT None
    [Node COLUMN_LIST None [leaf IDENTIFIER "major"; leaf AGGREGATE_FUNCTION "COUNT"];
     leaf TABLE_NAME "students";
     Node GROUP_BY_CLAUSE None [leaf IDENTIFIER "major"]].

Global Instance group_by_named_dec node : Decision (group_by_named node).
Proof. unfold group_by_named. apply _. Defined.

(** The exception that aborts the analysis of a select statement, if any:
    the clauses are analysed in the order [WHERE], [GROUP BY], [HAVING]. *)
Definition aborting_error (node : ASTNode) : option exn :=
  if decide (Exists (λ c, type c = WHERE_CLAUSE) (children node))
  then Some (TypeError too_many_positional_arguments)
  else if decide (group_by_named node)
       then if decide (Exists (λ c, type c = HAVING_CLAUSE) (children node))
            then Some (TypeError too_many_positional_arguments)
            else None
       else Some (TypeError join_item_not_str).

(** The column list analysed holds no wildcard. *)
Definition no_wildcard (node : ASTNode) : Prop :=
  match first_column_list node with
  | Some cl => Forall (λ c, ¬ is_wildcard c) (children cl)
  | None => True
  end.

(** The entries of the column list analysed; none when the statement has no
    column list. *)
Definition select_entries (node : ASTNode) : list (option string) :=
  match first_column_list node with
  | Some cl => column_entries 0 (children cl)
  | None => []
  end.

(** The text of one [ORDER_SPEC] node: [f"{column_name} {direction}"]. *)
Definition order_spec_text (g : ASTNode) : string :=
  format_optional (value g) +:+ " " +:+ order_direction g.

(** The quadruples of a list of order-by clauses when [n] temporaries have
    been issued before. *)
Definition order_by_quadruples (n : nat) (cs : list ASTNode) : list Quadruple :=
  imap (λ i c,
          ORDER_BY (String.concat ","
                      (order_spec_text <$>
                         filter (λ g, type g = ORDER_SPEC) (children c)))
                   (temp_name (S (n + i)))) cs.

(** The quadruples of a list of group-by clauses: the columns collected so
    far, [acc], are carried from one clause to the next. *)
Fixpoint group_by_quadruples (n : nat) (acc : list (option string))
    (gcs : list ASTNode) : list Quadruple :=
  match gcs with
  | [] => []
  | g :: rest =>
      match acc ++ group_by_names g with
      | [] => group_by_quadruples n [] rest
      | x :: cols =>
          GROUP_BY (String.concat "," (omap id (x :: cols))) (temp_name (S n))
            :: group_by_quadruples (S n) (x :: cols) rest
      end
  end.

(** The temporary that a quadruple defines: the string in its [result]
    field, except for the [ON] quadruple, whose [result] field holds the
    comparison tag. *)
Definition defines (q : Quadruple) : option string :=
  match result q with
  | PStr t => if decide (q = ON) then None else Some t
  | _ => None
  end.

(** A call appends quadruples that define no temporary, and issues none. *)
Definition neutral {A} (m : M A) : Prop :=
  ∀ w, ∃ qs,
    quadruples (self (m w).2) = quadruples (self w) ++ qs ∧
    issued (m w).2 = issued w ∧
    omap defines qs = [].

(** A call issues no temporary and appends quadruples that define [t] and
    nothing else; it has defined [t] when it returns. *)
Definition defining (t : string) {A} (m : M A) : Prop :=
  ∀ w, ∃ qs,
    quadruples (self (m w).2) = quadruples (self w) ++ qs ∧
    issued (m w).2 = issued w ∧
    (omap defines qs = [] ∨ omap defines qs = [t]) ∧
    (∀ a, (m w).1 = Returned a → omap defines qs = [t]).

(** The temporaries defined by the quadruples that a call appends are, in
    order, temporaries that the call was issued; when the call returns they
    are all of them. *)
Definition balanced {A} (m : M A) : Prop :=
  ∀ w, ∃ qs new,
    quadruples (self (m w).2) = quadruples (self w) ++ qs ∧
    issued (m w).2 = issued w ++ new ∧
    omap defines qs `prefix_of` new ∧
    (∀ a, (m w).1 = Returned a → omap defines qs = new).

(** ** Scenarios, evaluated *)

Example scenario1_quadruples :
  returned (analyze scenario1 fresh_world) =
  Some [mkQuadruple (PStr "BEGIN") PNone PNone PNone;
        mkQuadruple (PStr "SELECT") (PList [Some "name"]) (PStr "students") (PStr "T1");
        mkQuadruple (PStr "OUTPUT") (PStr "T1") PNone PNone;
        mkQuadruple (PStr "END") PNone PNone PNone].
Proof. vm_compute. reflexivity. Qed.

Example scenario2_quadruples :
  returned (analyze scenario2 fresh_world) =
  Some [mkQuadruple (PStr "BEGIN") PNone PNone PNone;
        mkQuadruple (PStr "COUNT") (PStr "*") PNone (PStr "T1");
        mkQuadruple (PStr "AVG") (PStr "value") PNone (PStr "T2");
        mkQuadruple (PStr "SELECT") (PList [Some "T1"; Some "T2"]) (PStr "students") (PStr "T3");
        mkQuadruple (PStr "OUTPUT") (PStr "T3") PNone PNone;
        mkQuadruple (PStr "END") PNone PNone PNone].
Proof. vm_compute. reflexivity. Qed.

Example select_with_join_quadruples :
  returned (analyze select_with_join fresh_world) =
  Some [BEGIN; JOIN (Some "orders") (Some "customers") "T1"; ON;
        SELECT (PStr "*") (PStr "orders") "T2"; OUTPUT "T2"; END].
Proof. by vm_compute. Qed.

(** ** Reasoning about calls *)

Lemma bind_Returned {A B} (m : M A) (k : A → M B) w a w' :
  m w = (Returned a, w') → bind m k w = k a w'.
Proof. unfold bind. by intros ->. Qed.

Lemma bind_Raised {A B} (m : M A) (k : A → M B) w e w' :
  m w = (Raised e, w') → bind m k w = (Raised e, w').
Proof. unfold bind. by intros ->. Qed.

Lemma bind_Returned_inv {A B} (m : M A) (k : A → M B) w b w'' :
  bind m k w = (Returned b, w'') →
  ∃ a w', m w = (Returned a, w') ∧ k a w' = (Returned b, w'').
Proof.
  unfold bind. destruct (m w) as [[a|e] w']; [eauto | discriminate].
Qed.

(** *** Relations between the world before and after a call *)

Section preserves.
Context (R : relation World) `{!Reflexive R, !Transitive R}.

Lemma preserves_ret {A} (a : A) : preserves R (ret a).
Proof. intros w. simpl. reflexivity. Qed.

Lemma preserves_raise {A} e : preserves R (@raise A e).
Proof. intros w. simpl. reflexivity. Qed.

Lemma preserves_bind {A B} (m : M A) (k : A → M B) :
  preserves R m → (∀ a, preserves R (k a)) → preserves R (bind m k).
Proof.
  intros Hm Hk w. unfold bind. specialize (Hm w).
  destruct (m w) as [[a|e] w']; simpl in *; [|done].
  etrans; [exact Hm | apply Hk].
Qed.

Lemma preserves_fold_each {A S} (xs : list A) (s : S) body :
  (∀ s x, preserves R (body s x)) → preserves R (fold_each xs s body).
Proof.
  intros Hb. revert s.
  induction xs as [|x xs IH]; intros s; simpl.
  - apply preserves_ret.
  - apply preserves_bind; [apply Hb | intros; apply IH].
Qed.

Lemma preserves_for_each {A} (xs : list A) body :
  (∀ x, preserves R (body x)) → preserves R (for_each xs body).
Proof. intros Hb. apply preserves_fold_each. intros _ x. apply Hb. Qed.

Lemma preserves_try_except {A} (body : M A) handler :
  preserves R body → (∀ e, preserves R (handler e)) →
  preserves R (try_except body handler).
Proof.
  intros Hm Hk w. unfold try_except. specialize (Hm w).
  destruct (body w) as [[a|e] w']; simpl in *; [done|].
  etrans; [exact Hm | apply Hk].
Qed.
End preserves.

Lemma temps_from_app n k1 k2 :
  temps_from n (k1 + k2) = temps_from n k1 ++ temps_from (n + k1) k2.
Proof.
  unfold temps_from. rewrite seq_app, fmap_app. do 3 f_equal. 
Qed.

Global Instance extends_refl : Reflexive extends.
Proof.
  intros w. repeat split; [by exists []; rewrite app_nil_r|].
  exists 0. unfold temps_from. simpl. by rewrite Nat.add_0_r, app_nil_r.
Qed.

Global Instance extends_trans : Transitive extends.
Proof.
  intros w1 w2 w3 (Hl1 & Hr1 & [q1 Hq1] & k1 & Hk1 & Hi1)
    (Hl2 & Hr2 & [q2 Hq2] & k2 & Hk2 & Hi2).
  repeat split; [congruence | congruence | |].
  - exists (q1 ++ q2). by rewrite Hq2, Hq1, app_assoc.
  - exists (k1 + k2). split; [lia|].
    by rewrite Hi2, Hi1, Hk1, temps_from_app, app_assoc.
Qed.

Global Instance same_symbols_refl : Reflexive same_symbols.
Proof. by intros w. Qed.

Global Instance same_symbols_trans : Transitive same_symbols.
Proof. unfold same_symbols. intros w1 w2 w3 H1 H2. congruence. Qed.

Lemma extends_emit o a b r : preserves extends (_emit o a b r).
Proof.
  intros w. simpl. repeat split; [by eexists|].
  exists 0. unfold temps_from. simpl. by rewrite Nat.add_0_r, app_nil_r.
Qed.

Lemma extends_generate_temp : preserves extends _generate_temp.
Proof.
  intros w. repeat split; [by exists []; rewrite app_nil_r|].
  exists 1. split; simpl; [lia | done].
Qed.

Lemma extends_add_symbol sym : preserves extends (add_symbol sym).
Proof.
  intros w. repeat split; [by exists []; rewrite app_nil_r|].
  exists 0. unfold temps_from. simpl. by rewrite Nat.add_0_r, app_nil_r.
Qed.

Lemma same_symbols_emit o a b r : preserves same_symbols (_emit o a b r).
Proof. by intros w. Qed.

Lemma same_symbols_generate_temp : preserves same_symbols _generate_temp.
Proof. by intros w. Qed.

(** Decomposes a goal [preserves R m] along the structure of [m]; [prim]
    closes the goals about the primitive calls. *)
Ltac preserves_step prim :=
  lazymatch goal with
  | |- ∀ _, _ => intros ?
  | |- Reflexive _ => tc_solve
  | |- Transitive _ => tc_solve
  | |- preserves _ _ =>
      first
        [ prim
        | apply preserves_ret
        | apply preserves_raise
        | apply preserves_bind
        | apply preserves_fold_each
        | apply preserves_for_each
        | case_decide
        | case_match ]
  end.

Ltac preserves_extends :=
  repeat preserves_step
    ltac:(first [ apply extends_emit | apply extends_generate_temp
                | apply extends_add_symbol ]).

Ltac preserves_symbols :=
  repeat preserves_step
    ltac:(first [ apply same_symbols_emit | apply same_symbols_generate_temp ]).

Lemma extends_call_emit args : preserves extends (call_emit args).
Proof. unfold call_emit. preserves_extends. Qed.

Lemma same_symbols_call_emit args : preserves same_symbols (call_emit args).
Proof. unfold call_emit. preserves_symbols. Qed.

Lemma extends_str_join sep items : preserves extends (str_join sep items).
Proof. unfold str_join. preserves_extends. Qed.

Lemma same_symbols_str_join sep items : preserves same_symbols (str_join sep items).
Proof. unfold str_join. preserves_symbols. Qed.

Ltac preserves_extends_calls :=
  repeat preserves_step
    ltac:(first [ apply extends_call_emit | apply extends_generate_temp
                | apply extends_add_symbol | apply extends_str_join ]).

Ltac preserves_symbols_calls :=
  repeat preserves_step
    ltac:(first [ apply same_symbols_call_emit | apply same_symbols_generate_temp
                | apply same_symbols_str_join ]).

Lemma extends_from_clause node : preserves extends (_analyze_from_clause node).
Proof. unfold _analyze_from_clause. preserves_extends_calls. Qed.

Lemma extends_column_list node info :
  preserves extends (_analyze_column_list node info).
Proof.
  unfold _analyze_column_list, column_list_step, _get_aggregate_column.
  preserves_extends_calls.
Qed.

Lemma extends_select_list node : preserves extends (_analyze_select_list node).
Proof.
  unfold _analyze_select_list. generalize (mkSelectInfo (PList []) [] false).
  induction (children node) as [|c cs IH]; intros info; simpl.
  - by apply preserves_ret; tc_solve.
  - case_decide; [apply extends_column_list | apply IH].
Qed.

Lemma extends_join_clauses node info :
  preserves extends (_analyze_join_clauses node info).
Proof.
  unfold _analyze_join_clauses, _analyze_join_clause, _analyze_join_condition.
  preserves_extends_calls.
Qed.

Lemma extends_condition node : preserves extends (_analyze_condition node).
Proof. unfold _analyze_condition. preserves_extends_calls. Qed.

Lemma extends_where_clause node : preserves extends (_analyze_where_clause node).
Proof.
  unfold _analyze_where_clause.
  repeat preserves_step ltac:(first [apply extends_condition | apply extends_call_emit]).
Qed.

Lemma extends_group_by_clause node :
  preserves extends (_analyze_group_by_clause node).
Proof. unfold _analyze_group_by_clause. preserves_extends_calls. Qed.

Lemma extends_having_clause node : preserves extends (_analyze_having_clause node).
Proof.
  unfold _analyze_having_clause.
  repeat preserves_step ltac:(first [apply extends_condition | apply extends_call_emit]).
Qed.

Lemma extends_order_by_clause node :
  preserves extends (_analyze_order_by_clause node).
Proof. unfold _analyze_order_by_clause. preserves_extends_calls. Qed.

Lemma extends_select_statement node :
  preserves extends (_analyze_select_statement node).
Proof.
  unfold _analyze_select_statement.
  repeat preserves_step
    ltac:(first [ apply extends_call_emit | apply extends_generate_temp
                | apply extends_from_clause | apply extends_select_list
                | apply extends_join_clauses | apply extends_where_clause
                | apply extends_group_by_clause | apply extends_having_clause
                | apply extends_order_by_clause ]).
Qed.

Lemma same_symbols_column_list node info :
  preserves same_symbols (_analyze_column_list node info).
Proof.
  unfold _analyze_column_list, column_list_step, _get_aggregate_column.
  preserves_symbols_calls.
Qed.

Lemma same_symbols_select_list node :
  preserves same_symbols (_analyze_select_list node).
Proof.
  unfold _analyze_select_list. generalize (mkSelectInfo (PList []) [] false).
  induction (children node) as [|c cs IH]; intros info; simpl.
  - by apply preserves_ret; tc_solve.
  - case_decide; [apply same_symbols_column_list | apply IH].
Qed.

Lemma same_symbols_join_clauses node info :
  preserves same_symbols (_analyze_join_clauses node info).
Proof.
  unfold _analyze_join_clauses, _analyze_join_clause, _analyze_join_condition.
  preserves_symbols_calls.
Qed.

Lemma same_symbols_condition node : preserves same_symbols (_analyze_condition node).
Proof. unfold _analyze_condition. preserves_symbols_calls. Qed.

Lemma same_symbols_where_clause node :
  preserves same_symbols (_analyze_where_clause node).
Proof.
  unfold _analyze_where_clause.
  repeat preserves_step
    ltac:(first [apply same_symbols_condition | apply same_symbols_call_emit]).
Qed.

Lemma same_symbols_group_by_clause node :
  preserves same_symbols (_analyze_group_by_clause node).
Proof. unfold _analyze_group_by_clause. preserves_symbols_calls. Qed.

Lemma same_symbols_having_clause node :
  preserves same_symbols (_analyze_having_clause node).
Proof.
  unfold _analyze_having_clause.
  repeat preserves_step
    ltac:(first [apply same_symbols_condition | apply same_symbols_call_emit]).
Qed.

Lemma same_symbols_order_by_clause node :
  preserves same_symbols (_analyze_order_by_clause node).
Proof. unfold _analyze_order_by_clause. preserves_symbols_calls. Qed.

(** *** Calls that cannot raise *)

Lemma never_raises_ret {A} (a : A) : never_raises (ret a).
Proof. intros w. by exists a. Qed.

Lemma never_raises_bind {A B} (m : M A) (k : A → M B) :
  never_raises m → (∀ a, never_raises (k a)) → never_raises (bind m k).
Proof.
  intros Hm Hk w. unfold bind. destruct (Hm w) as [a Ha].
  destruct (m w) as [r w']; simpl in Ha; subst r. apply Hk.
Qed.

Lemma never_raises_fold_each {A S} (xs : list A) (s : S) body :
  (∀ s x, never_raises (body s x)) → never_raises (fold_each xs s body).
Proof.
  intros Hb. revert s. induction xs as [|x xs IH]; intros s; simpl.
  - apply never_raises_ret.
  - apply never_raises_bind; [apply Hb | intros; apply IH].
Qed.

Lemma never_raises_for_each {A} (xs : list A) body :
  (∀ x, never_raises (body x)) → never_raises (for_each xs body).
Proof. intros Hb. apply never_raises_fold_each. intros _ x. apply Hb. Qed.

Lemma never_raises_emit o a b r : never_raises (_emit o a b r).
Proof. intros w. by exists tt. Qed.

Lemma never_raises_generate_temp : never_raises _generate_temp.
Proof. intros w. by eexists. Qed.

Lemma never_raises_add_symbol sym : never_raises (add_symbol sym).
Proof. intros w. by exists tt. Qed.

Ltac never_raises_step prim :=
  lazymatch goal with
  | |- ∀ _, _ => intros ?
  | |- never_raises _ =>
      first
        [ prim
        | apply never_raises_emit
        | apply never_raises_generate_temp
        | apply never_raises_add_symbol
        | apply never_raises_ret
        | apply never_raises_bind
        | apply never_raises_fold_each
        | apply never_raises_for_each
        | case_decide
        | case_match ]
  end.

Lemma never_raises_from_clause node : never_raises (_analyze_from_clause node).
Proof. unfold _analyze_from_clause. repeat never_raises_step fail. Qed.

Lemma never_raises_column_list node info :
  never_raises (_analyze_column_list node info).
Proof.
  unfold _analyze_column_list, column_list_step, _get_aggregate_column.
  repeat never_raises_step fail.
Qed.

Lemma never_raises_select_list node : never_raises (_analyze_select_list node).
Proof.
  unfold _analyze_select_list. generalize (mkSelectInfo (PList []) [] false).
  induction (children node) as [|c cs IH]; intros info; simpl.
  - apply never_raises_ret.
  - case_decide; [apply never_raises_column_list | apply IH].
Qed.

Lemma never_raises_join_clauses node info :
  never_raises (_analyze_join_clauses node info).
Proof.
  unfold _analyze_join_clauses, _analyze_join_clause, _analyze_join_condition.
  repeat never_raises_step fail.
Qed.

Lemma never_raises_order_by_clause node :
  never_raises (_analyze_order_by_clause node).
Proof. unfold _analyze_order_by_clause. repeat never_raises_step fail. Qed.

(** *** Calls whose result does not depend on what the analyzer held *)

Lemma respects_ret {A} (a : A) : respects (ret a).
Proof. by intros w1 w2 H. Qed.

Lemma respects_raise {A} e : respects (@raise A e).
Proof. by intros w1 w2 H. Qed.

Lemma respects_bind {A B} (m : M A) (k : A → M B) :
  respects m → (∀ a, respects (k a)) → respects (bind m k).
Proof.
  intros Hm Hk w1 w2 H. unfold bind. destruct (Hm w1 w2 H) as [Hr Hw].
  destruct (m w1) as [r1 w1'], (m w2) as [r2 w2']; simpl in *; subst r2.
  destruct r1 as [a|e]; [by apply Hk | done].
Qed.

Lemma respects_fold_each {A S} (xs : list A) (s : S) body :
  (∀ s x, respects (body s x)) → respects (fold_each xs s body).
Proof.
  intros Hb. revert s. induction xs as [|x xs IH]; intros s; simpl.
  - apply respects_ret.
  - apply respects_bind; [apply Hb | intros; apply IH].
Qed.

Lemma respects_for_each {A} (xs : list A) body :
  (∀ x, respects (body x)) → respects (for_each xs body).
Proof. intros Hb. apply respects_fold_each. intros _ x. apply Hb. Qed.

Lemma respects_try_except {A} (body : M A) handler :
  respects body → (∀ e, respects (handler e)) →
  respects (try_except body handler).
Proof.
  intros Hm Hk w1 w2 H. unfold try_except. destruct (Hm w1 w2 H) as [Hr Hw].
  destruct (body w1) as [r1 w1'], (body w2) as [r2 w2']; simpl in *; subst r2.
  destruct r1 as [a|e]; [done | by apply Hk].
Qed.

Lemma respects_emit o a b r : respects (_emit o a b r).
Proof. intros w1 w2 (Hq & Ht & Hl). simpl. unfold same_pass. simpl. by rewrite Hq. Qed.

Lemma respects_generate_temp : respects _generate_temp.
Proof. intros w1 w2 (Hq & Ht & Hl). unfold same_pass. simpl. by rewrite Ht. Qed.

Lemma respects_add_symbol sym : respects (add_symbol sym).
Proof. by intros w1 w2 (Hq & Ht & Hl). Qed.

Lemma respects_report e : respects (report e).
Proof. by intros w1 w2 (Hq & Ht & Hl). Qed.

Lemma respects_get_quadruples : respects get_quadruples.
Proof. intros w1 w2 (Hq & Ht & Hl). unfold same_pass. simpl. by rewrite Hq. Qed.

Ltac respects_step prim :=
  lazymatch goal with
  | |- ∀ _, _ => intros ?
  | |- respects _ =>
      first
        [ prim
        | apply respects_emit
        | apply respects_generate_temp
        | apply respects_add_symbol
        | apply respects_report
        | apply respects_get_quadruples
        | apply respects_ret
        | apply respects_raise
        | apply respects_bind
        | apply respects_fold_each
        | apply respects_for_each
        | apply respects_try_except
        | case_decide
        | case_match ]
  end.

Lemma respects_select_list node : respects (_analyze_select_list node).
Proof.
  unfold _analyze_select_list. generalize (mkSelectInfo (PList []) [] false).
  induction (children node) as [|c cs IH]; intros info; simpl.
  - apply respects_ret.
  - case_decide; [|apply IH].
    unfold _analyze_column_list, column_list_step, _get_aggregate_column.
    repeat respects_step fail.
Qed.

Lemma respects_select_statement node : respects (_analyze_select_statement node).
Proof.
  unfold _analyze_select_statement, _analyze_from_clause, _analyze_join_clauses,
    _analyze_join_clause, _analyze_join_condition, _analyze_where_clause,
    _analyze_group_by_clause, _analyze_having_clause, _analyze_order_by_clause,
    _analyze_condition, str_join.
  repeat respects_step ltac:(apply respects_select_list).
Qed.

(** ** The pass as a whole *)

Lemma analyze_select_Returned ast w w' :
  type ast = SELECT_STMT →
  _analyze_select_statement ast (start_of_pass w) = (Returned tt, w') →
  analyze ast w = (Returned (quadruples (self w')), w').
Proof.
  intros Ht Hb. unfold analyze.
  rewrite (bind_Returned reset_pass _ w tt (start_of_pass w)) by done.
  unfold try_except. rewrite decide_True by done.
  by rewrite (bind_Returned _ _ _ _ _ Hb).
Qed.

Lemma analyze_select_Raised ast w e w' :
  type ast = SELECT_STMT →
  _analyze_select_statement ast (start_of_pass w) = (Raised e, w') →
  analyze ast w =
    (Returned [], {| self := self w'; reported := reported w' ++ [e];
                     issued := issued w' |}).
Proof.
  intros Ht Hb. unfold analyze.
  rewrite (bind_Returned reset_pass _ w tt (start_of_pass w)) by done.
  unfold try_except. rewrite decide_True by done.
  by rewrite (bind_Raised _ _ _ _ _ Hb).
Qed.

Lemma analyze_other ast w :
  type ast ≠ SELECT_STMT →
  analyze ast w =
    (Returned [],
     {| self := self (start_of_pass w);
        reported := reported w ++
          [SemanticError ("Unsupported statement type: "
                            +:+ ASTNodeType_str (type ast))];
        issued := issued w |}).
Proof.
  intros Ht. unfold analyze.
  rewrite (bind_Returned reset_pass _ w tt (start_of_pass w)) by done.
  unfold try_except. by rewrite decide_False by done.
Qed.

Lemma finish_run si ti w :
  finish si ti w =
    (Returned tt,
     {| self :=
          {| symbol_table := symbol_table (self w);
             quadruples :=
               quadruples (self w) ++
                 [SELECT (columns si) (of_optional (main_table ti))
                         (temp_name (S (temp_counter (self w))));
                  OUTPUT (temp_name (S (temp_counter (self w))));
                  END];
             temp_counter := S (temp_counter (self w));
             label_counter := label_counter (self w) |};
        reported := reported w;
        issued := issued w ++ [temp_name (S (temp_counter (self w)))] |}).
Proof.
  cbv [finish bind call_emit _emit _generate_temp update_self]. simpl.
  by rewrite <- !app_assoc.
Qed.

(** The first three clauses always return; what follows them decides. *)
Lemma select_statement_run node w :
  ∃ ti w2 si w3 ti' w4,
    _analyze_from_clause node (call_emit [PStr "BEGIN"; PNone; PNone; PNone] w).2
      = (Returned ti, w2) ∧
    _analyze_select_list node w2 = (Returned si, w3) ∧
    _analyze_join_clauses node ti w3 = (Returned ti', w4) ∧
    _analyze_select_statement node w = (later_clauses node ;;; finish si ti') w4.
Proof.
  set (w1 := (call_emit [PStr "BEGIN"; PNone; PNone; PNone] w).2).
  destruct (never_raises_from_clause node w1) as [ti Hti].
  destruct (_analyze_from_clause node w1) as [r1 w2] eqn:E1. simpl in Hti. subst r1.
  destruct (never_raises_select_list node w2) as [si Hsi].
  destruct (_analyze_select_list node w2) as [r2 w3] eqn:E2. simpl in Hsi. subst r2.
  destruct (never_raises_join_clauses node ti w3) as [ti' Hti'].
  destruct (_analyze_join_clauses node ti w3) as [r3 w4] eqn:E3. simpl in Hti'. subst r3.
  exists ti, w2, si, w3, ti', w4. repeat split; try done.
  unfold _analyze_select_statement.
  rewrite (bind_Returned _ _ w tt w1) by done.
  rewrite (bind_Returned _ _ _ _ _ E1), (bind_Returned _ _ _ _ _ E2),
    (bind_Returned _ _ _ _ _ E3).
  unfold later_clauses, finish, bind.
  destruct (_analyze_where_clause node w4) as [[[]|?] ?]; [|done].
  destruct (_analyze_group_by_clause node _) as [[?|?] ?]; [|done].
  destruct (_analyze_having_clause node _) as [[[]|?] ?]; [|done].
  by destruct (_analyze_order_by_clause node _) as [[[]|?] ?].
Qed.

Lemma extends_later_clauses node : preserves extends (later_clauses node).
Proof.
  unfold later_clauses.
  repeat preserves_step
    ltac:(first [ apply extends_where_clause | apply extends_group_by_clause
                | apply extends_having_clause | apply extends_order_by_clause ]).
Qed.

Lemma same_symbols_later_clauses node : preserves same_symbols (later_clauses node).
Proof.
  unfold later_clauses.
  repeat preserves_step
    ltac:(first [ apply same_symbols_where_clause | apply same_symbols_group_by_clause
                | apply same_symbols_having_clause | apply same_symbols_order_by_clause ]).
Qed.

Lemma respects_analyze ast : respects (analyze ast).
Proof.
  unfold analyze.
  apply respects_bind; [|intros _].
  - by intros w1 w2 _.
  - repeat respects_step ltac:(apply respects_select_statement).
Qed.

(** After [analyze] the history holds, after what it held before, the names
    [T1 .. Tk], where [k] is the final value of the temporary counter. *)
Lemma analyze_issued ast w :
  ∃ k, issued (analyze ast w).2 = issued w ++ temps_from 0 k ∧
       temp_counter (self (analyze ast w).2) = k ∧
       label_counter (self (analyze ast w).2) = 0.
Proof.
  destruct (decide (type ast = SELECT_STMT)) as [Ht|Ht].
  - pose proof (extends_select_statement ast (start_of_pass w))
      as (Hl & Hr & _ & k & Hk & Hi).
    destruct (_analyze_select_statement ast (start_of_pass w)) as [[[]|e] w'] eqn:E.
    + rewrite (analyze_select_Returned _ _ _ Ht E). by exists k.
    + rewrite (analyze_select_Raised _ _ _ _ Ht E). by exists k.
  - rewrite (analyze_other _ _ Ht). exists 0. simpl.
    unfold temps_from. simpl. by rewrite app_nil_r.
Qed.

Global Instance temp_name_inj : Inj (=) (=) temp_name.
Proof.
  intros m n H. unfold temp_name in H.
  cbn [String.append] in H.
  injection H as H. cbn [String.append] in H.
  exact (pretty_nat_inj _ _ H).
Qed.

Lemma extends_quadruples w w' :
  extends w w' → ∃ qs, quadruples (self w') = quadruples (self w) ++ qs.
Proof. by intros (_ & _ & H & _). Qed.

Lemma start_of_pass_same w1 w2 : same_pass (start_of_pass w1) (start_of_pass w2).
Proof. done. Qed.

(** What the call returns, and the counters and buffer it leaves, do not
    depend on the analyzer it is made on. *)
Lemma analyze_independent ast w1 w2 :
  (analyze ast w1).1 = (analyze ast w2).1 ∧
  same_pass (analyze ast w1).2 (analyze ast w2).2.
Proof.
  assert (∀ w, analyze ast w = analyze ast (start_of_pass w)) as Hstart.
  { intros w. unfold analyze.
    rewrite (bind_Returned reset_pass _ w tt (start_of_pass w)) by done.
    by rewrite (bind_Returned reset_pass _ (start_of_pass w) tt (start_of_pass w)). }
  rewrite (Hstart w1), (Hstart w2).
  apply respects_analyze, start_of_pass_same.
Qed.

Lemma analyze_never_raises ast : never_raises (analyze ast).
Proof.
  intros w. destruct (decide (type ast = SELECT_STMT)) as [Ht|Ht].
  - destruct (_analyze_select_statement ast (start_of_pass w)) as [[[]|e] w'] eqn:E.
    + rewrite (analyze_select_Returned _ _ _ Ht E). by eexists.
    + rewrite (analyze_select_Raised _ _ _ _ Ht E). by eexists.
  - rewrite (analyze_other _ _ Ht). by eexists.
Qed.

(** The body of [_analyze_select_statement] on a world: either the later
    clauses return and the closing quadruples are appended, or one of them
    raises. *)
Lemma select_statement_outcome node w :
  ∃ ti w2 si w3 ti' w4,
    _analyze_from_clause node (call_emit [PStr "BEGIN"; PNone; PNone; PNone] w).2
      = (Returned ti, w2) ∧
    _analyze_select_list node w2 = (Returned si, w3) ∧
    _analyze_join_clauses node ti w3 = (Returned ti', w4) ∧
    match later_clauses node w4 with
    | (Returned _, w5) => _analyze_select_statement node w = finish si ti' w5
    | (Raised e, w5) => _analyze_select_statement node w = (Raised e, w5)
    end.
Proof.
  destruct (select_statement_run node w)
    as (ti & w2 & si & w3 & ti' & w4 & E1 & E2 & E3 & Eb).
  exists ti, w2, si, w3, ti', w4. repeat split; try done.
  rewrite Eb. unfold bind. by destruct (later_clauses node w4) as [[[]|e] w5].
Qed.

(** *** Loops *)

Lemma fold_each_skip {A S} (xs : list A) (s : S) body w :
  (∀ x s, x ∈ xs → body s x = ret s) →
  fold_each xs s body w = (Returned s, w).
Proof.
  induction xs as [|x xs IH]; intros Hb; simpl; [done|].
  rewrite Hb by left. unfold bind, ret at 1.
  apply IH. intros y s' Hy. apply Hb. by right.
Qed.

Lemma for_each_skip {A} (xs : list A) body w :
  (∀ x, x ∈ xs → body x = ret tt) →
  for_each xs body w = (Returned tt, w).
Proof.
  intros Hb. unfold for_each. apply fold_each_skip.
  intros x [] Hx. by apply Hb.
Qed.

(** A loop whose body does nothing outside [P] and raises on [P] either
    raises, when some element satisfies [P], or returns without effect. *)
Lemma for_each_raises {A} (P : A → Prop) `{∀ x, Decision (P x)}
    (xs : list A) body e w :
  (∀ x, ¬ P x → body x = ret tt) →
  (∀ x w, P x → (body x w).1 = Raised e) →
  Exists P xs →
  (for_each xs body w).1 = Raised e.
Proof.
  intros Hskip Hraise. unfold for_each.
  induction xs as [|x xs IH]; intros Hex; [by apply Exists_nil in Hex|].
  simpl. destruct (decide (P x)) as [Hx|Hx].
  - unfold bind. specialize (Hraise x w Hx).
    destruct (body x w) as [r w']. simpl in Hraise. by subst r.
  - rewrite (Hskip x Hx). unfold bind, ret at 1. apply IH.
    apply Exists_cons in Hex as [?|?]; [done|done].
Qed.

(** *** Exceptions a call can raise *)

Lemma raises_only_ret E {A} (a : A) : raises_only E (ret a).
Proof. by intros w e H. Qed.

Lemma raises_only_raise E {A} e : E e → raises_only E (@raise A e).
Proof. intros He w e' H. simpl in H. by injection H as <-. Qed.

Lemma raises_only_never E {A} (m : M A) : never_raises m → raises_only E m.
Proof. intros Hm w e H. destruct (Hm w) as [a Ha]. congruence. Qed.

Lemma raises_only_bind E {A B} (m : M A) (k : A → M B) :
  raises_only E m → (∀ a, raises_only E (k a)) → raises_only E (bind m k).
Proof.
  intros Hm Hk w e. unfold bind. specialize (Hm w).
  destruct (m w) as [[a|e'] w']; simpl in *; [apply Hk|].
  intros [= <-]. by apply Hm.
Qed.

Lemma raises_only_fold_each E {A S} (xs : list A) (s : S) body :
  (∀ s x, raises_only E (body s x)) → raises_only E (fold_each xs s body).
Proof.
  intros Hb. revert s. induction xs as [|x xs IH]; intros s; simpl.
  - apply raises_only_ret.
  - apply raises_only_bind; [apply Hb | intros; apply IH].
Qed.

Lemma raises_only_for_each E {A} (xs : list A) body :
  (∀ x, raises_only E (body x)) → raises_only E (for_each xs body).
Proof. intros Hb. apply raises_only_fold_each. intros _ x. apply Hb. Qed.

Ltac raises_only_step :=
  lazymatch goal with
  | |- ∀ _, _ => intros ?
  | |- is_TypeError _ => by eexists
  | |- raises_only _ _ =>
      first
        [ apply raises_only_never;
          first [ apply never_raises_emit | apply never_raises_generate_temp
                | apply never_raises_ret ]
        | apply raises_only_raise
        | apply raises_only_bind
        | apply raises_only_fold_each
        | apply raises_only_for_each
        | case_decide
        | case_match ]
  end.

Lemma later_clauses_raise_TypeError node :
  raises_only is_TypeError (later_clauses node).
Proof.
  unfold later_clauses, _analyze_where_clause, _analyze_group_by_clause,
    _analyze_having_clause, _analyze_order_by_clause, _analyze_condition, str_join.
  repeat raises_only_step.
Qed.

(** *** The condition routine and the clauses that call it *)

Lemma condition_raises node w :
  (_analyze_condition node w).1 = Raised (TypeError too_many_positional_arguments).
Proof. reflexivity. Qed.

Lemma where_clause_raises node w :
  Exists (λ c, type c = WHERE_CLAUSE) (children node) →
  (_analyze_where_clause node w).1 = Raised (TypeError too_many_positional_arguments).
Proof.
  unfold _analyze_where_clause.
  apply (for_each_raises (λ c, type c = WHERE_CLAUSE)).
  - intros c Hc. by rewrite decide_False.
  - intros c w' Hc. by rewrite decide_True.
Qed.

Lemma having_clause_raises node w :
  Exists (λ c, type c = HAVING_CLAUSE) (children node) →
  (_analyze_having_clause node w).1 = Raised (TypeError too_many_positional_arguments).
Proof.
  unfold _analyze_having_clause.
  apply (for_each_raises (λ c, type c = HAVING_CLAUSE)).
  - intros c Hc. by rewrite decide_False.
  - intros c w' Hc. by rewrite decide_True.
Qed.

Lemma where_clause_absent node w :
  Forall (λ c, type c ≠ WHERE_CLAUSE) (children node) →
  _analyze_where_clause node w = (Returned tt, w).
Proof.
  intros Hall. unfold _analyze_where_clause. apply for_each_skip.
  intros c Hc. rewrite Forall_forall in Hall. by rewrite decide_False by auto.
Qed.

Lemma having_clause_absent node w :
  Forall (λ c, type c ≠ HAVING_CLAUSE) (children node) →
  _analyze_having_clause node w = (Returned tt, w).
Proof.
  intros Hall. unfold _analyze_having_clause. apply for_each_skip.
  intros c Hc. rewrite Forall_forall in Hall. by rewrite decide_False by auto.
Qed.

Lemma later_clauses_where node w :
  Exists (λ c, type c = WHERE_CLAUSE) (children node) →
  (later_clauses node w).1 = Raised (TypeError too_many_positional_arguments).
Proof.
  intros Hex. unfold later_clauses, bind.
  pose proof (where_clause_raises node w Hex) as Hw.
  destruct (_analyze_where_clause node w) as [r w']. simpl in Hw. by subst r.
Qed.

Lemma later_clauses_having node w :
  Exists (λ c, type c = HAVING_CLAUSE) (children node) →
  ∃ e, (later_clauses node w).1 = Raised e ∧ is_TypeError e.
Proof.
  intros Hex.
  assert (∃ e, (later_clauses node w).1 = Raised e) as [e He].
  { unfold later_clauses, bind.
    destruct (_analyze_where_clause node w) as [[[]|e1] w1]; [|by eexists].
    destruct (_analyze_group_by_clause node w1) as [[gi|e2] w2]; [|by eexists].
    pose proof (having_clause_raises node w2 Hex) as Hh.
    destruct (_analyze_having_clause node w2) as [r w3]. simpl in Hh. subst r.
    by eexists. }
  exists e. split; [done|]. by apply (later_clauses_raise_TypeError node w).
Qed.

(** When the later clauses raise, [analyze] hands back the empty list and
    the handler reports the exception. *)
Lemma analyze_select_aborts (E : exn → Prop) ast w :
  type ast = SELECT_STMT →
  (∀ w', ∃ e, (later_clauses ast w').1 = Raised e ∧ E e) →
  ∃ e, E e ∧ (analyze ast w).1 = Returned [] ∧
       reported (analyze ast w).2 = reported w ++ [e].
Proof.
  intros Ht Hraise.
  destruct (select_statement_outcome ast (start_of_pass w))
    as (ti & w2 & si & w3 & ti' & w4 & E1 & E2 & E3 & Eb).
  destruct (Hraise w4) as (e & He & HE).
  destruct (later_clauses ast w4) as [[[]|e'] w5]; simpl in He; [done|].
  injection He as ->. exists e. split; [done|].
  pose proof (extends_select_statement ast (start_of_pass w)) as (_ & Hr & _).
  rewrite Eb in Hr. simpl in Hr.
  rewrite (analyze_select_Raised _ _ _ _ Ht Eb). simpl. by rewrite Hr.
Qed.

(** *** What the clauses append *)

Lemma column_list_step_aggregate info child w :
  type child = AGGREGATE_FUNCTION →
  column_list_step info child w =
    (Returned
       {| columns := append_column (columns info)
                       (Some (temp_name (S (temp_counter (self w)))));
          aggregates := aggregates info ++
                          [(value child, temp_name (S (temp_counter (self w))))];
          has_aggregates := true |},
     {| self :=
          {| symbol_table := symbol_table (self w);
             quadruples := quadruples (self w) ++
               [aggregate_quadruple (value child)
                  (temp_name (S (temp_counter (self w))))];
             temp_counter := S (temp_counter (self w));
             label_counter := label_counter (self w) |};
        reported := reported w;
        issued := issued w ++ [temp_name (S (temp_counter (self w)))] |}).
Proof.
  intros Ht. unfold column_list_step, aggregate_quadruple.
  rewrite decide_False by (rewrite Ht; discriminate).
  rewrite decide_True by done.
  by destruct (decide (value child = Some "COUNT")).
Qed.

Lemma column_list_step_other info child w :
  type child ≠ AGGREGATE_FUNCTION →
  ∃ info', column_list_step info child w = (Returned info', w).
Proof.
  intros Ht. unfold column_list_step.
  destruct (decide (type child = IDENTIFIER)).
  - destruct (decide (value child = Some "*")); by eexists.
  - rewrite decide_False by done. by eexists.
Qed.

Lemma column_list_spec cs info w :
  ∃ info' w',
    fold_each cs info column_list_step w = (Returned info', w') ∧
    quadruples (self w') =
      quadruples (self w) ++
        aggregate_quadruples (temp_counter (self w))
          (filter (λ c, type c = AGGREGATE_FUNCTION) cs) ∧
    temp_counter (self w') =
      temp_counter (self w) + length (filter (λ c, type c = AGGREGATE_FUNCTION) cs).
Proof.
  revert info w. induction cs as [|c cs IH]; intros info w; simpl.
  - exists info, w. unfold aggregate_quadruples. simpl.
    by rewrite app_nil_r, Nat.add_0_r.
  - destruct (decide (type c = AGGREGATE_FUNCTION)) as [Hc|Hc].
    + rewrite (bind_Returned _ _ _ _ _ (column_list_step_aggregate info c w Hc)).
      rewrite filter_cons_True by done.
      edestruct IH as (info' & w' & -> & Hq & Hn).
      exists info', w'. split; [done|]. rewrite Hq, Hn. simpl.
      unfold aggregate_quadruples. simpl. rewrite <- app_assoc. simpl.
      rewrite Nat.add_0_r. split; [|lia]. do 2 f_equal.
      apply imap_ext. intros i x _. simpl. do 3 f_equal. lia.
    + destruct (column_list_step_other info c w Hc) as [info1 E].
      rewrite (bind_Returned _ _ _ _ _ E).
      rewrite filter_cons_False by done. apply IH.
Qed.

Lemma select_list_loop_first cs info :
  select_list_loop cs info =
    match head (filter (λ c, type c = COLUMN_LIST) cs) with
    | Some cl => _analyze_column_list cl info
    | None => ret info
    end.
Proof.
  induction cs as [|c cs IH]; simpl; [done|].
  destruct (decide (type c = COLUMN_LIST)).
  - by rewrite filter_cons_True.
  - by rewrite filter_cons_False.
Qed.

Lemma select_list_spec node w si w' :
  _analyze_select_list node w = (Returned si, w') →
  quadruples (self w') =
    quadruples (self w) ++
      aggregate_quadruples (temp_counter (self w)) (aggregate_nodes node) ∧
  temp_counter (self w') = temp_counter (self w) + length (aggregate_nodes node).
Proof.
  unfold _analyze_select_list, aggregate_nodes, first_column_list.
  rewrite select_list_loop_first.
  destruct (head (filter _ (children node))) as [cl|].
  - unfold _analyze_column_list. intros E.
    edestruct (column_list_spec (children cl)) as (info' & w1 & E' & Hq & Hn).
    rewrite E' in E. by injection E as <- <-.
  - intros [= <- <-]. unfold aggregate_quadruples. simpl.
    by rewrite app_nil_r, Nat.add_0_r.
Qed.

Lemma from_clause_spec node w ti w2 :
  _analyze_from_clause node w = (Returned ti, w2) →
  main_table ti = main_table_of node ∧
  quadruples (self w2) = quadruples (self w) ∧
  temp_counter (self w2) = temp_counter (self w) ∧
  (Forall (λ c, type c ≠ TABLE_NAME) (children node) → w2 = w).
Proof.
  unfold _analyze_from_clause, main_table_of.
  match goal with |- context [fold_each _ ?i ?b] => set (body := b); set (init := i) end.
  assert (∀ cs info w ti w2,
            fold_each cs info body w = (Returned ti, w2) →
            main_table ti =
              match last (filter (λ c, type c = TABLE_NAME) cs) with
              | Some c => value c
              | None => main_table info
              end ∧
            quadruples (self w2) = quadruples (self w) ∧
            temp_counter (self w2) = temp_counter (self w) ∧
            (Forall (λ c, type c ≠ TABLE_NAME) cs → w2 = w ∧ ti = info)) as Hgen.
  { clear. induction cs as [|c cs IH]; intros info w ti w2; simpl.
    - intros [= <- <-]. by repeat split.
    - unfold body at 1. destruct (decide (type c = TABLE_NAME)) as [Hc|Hc].
      + rewrite filter_cons_True by done. rewrite last_cons.
        unfold bind at 1. simpl. intros E.
        apply IH in E as (Hm & Hq & Hn & _). simpl in *.
        split; [|split; [done|split; [done|]]].
        * rewrite Hm. by destruct (last _).
        * intros Hall. by apply Forall_cons in Hall as [? _].
      + rewrite filter_cons_False by done.
        unfold bind at 1. simpl. intros E.
        apply IH in E as (Hm & Hq & Hn & Hw).
        split; [done|split; [done|split; [done|]]].
        intros Hall. apply Forall_cons in Hall as [_ Hall]. by apply Hw. }
  intros E. apply Hgen in E as (Hm & Hq & Hn & Hw).
  split; [|split; [done|split; [done|]]].
  - rewrite Hm. by destruct (last _).
  - intros Hall. by apply Hw.
Qed.

Lemma join_clause_spec j info w :
  ∃ info' w',
    _analyze_join_clause j info w = (Returned info', w') ∧
    main_table info' = main_table info ∧
    if decide (truthy (joined_table j) = true ∧
               Exists (λ c, type c = ON_CLAUSE) (children j))
    then quadruples (self w') =
           quadruples (self w) ++
             [JOIN (main_table info) (joined_table j)
                   (temp_name (S (temp_counter (self w)))); ON] ∧
         temp_counter (self w') = S (temp_counter (self w))
    else quadruples (self w') = quadruples (self w) ∧
         temp_counter (self w') = temp_counter (self w).
Proof.
  unfold _analyze_join_clause, joined_table.
  match goal with |- context [fold_each _ ?i ?b] => set (body := b); set (init := i) end.
  assert (∀ cs l w,
            ∃ l', fold_each cs l body w = (Returned l', w) ∧
              join_table l' =
                match last (filter (λ c, type c = TABLE_NAME) cs) with
                | Some c => value c
                | None => join_table l
                end ∧
              (Exists (λ c, type c = ON_CLAUSE) cs → is_Some (join_cond l') ∧
                 ∀ c, join_cond l' = Some c →
                      cond_left c = "table1.id" ∧ cond_right c = "table2.id" ∧ cond_op c = "EQ"
                      ∨ join_cond l = Some c) ∧
              (¬ Exists (λ c, type c = ON_CLAUSE) cs → join_cond l' = join_cond l) ∧
              main_table (join_info l') = main_table (join_info l)) as Hgen.
  { clear. induction cs as [|c cs IH]; intros l w; simpl.
    - exists l. split; [done|]. split; [done|]. split; [|done].
      intros Hex. by apply Exists_nil in Hex.
    - unfold body at 1. destruct (decide (type c = TABLE_NAME)) as [Hc|Hc].
      + rewrite filter_cons_True by done. rewrite last_cons.
        unfold bind at 1. simpl.
        edestruct IH as (l' & -> & Ht & Hon & Hoff & Hm).
        exists l'. split; [done|]. simpl in *.
        split; [rewrite Ht; by destruct (last _)|].
        split; [|split; [|done]].
        * intros Hex. apply Exists_cons in Hex as [Hex|Hex]; [congruence|].
          by apply Hon.
        * intros Hex. apply Hoff. intros Hex'. apply Hex. by right.
      + rewrite filter_cons_False by done.
        destruct (decide (type c = ON_CLAUSE)) as [Ho|Ho].
        * unfold bind at 1. simpl.
          edestruct IH as (l' & -> & Ht & Hon & Hoff & Hm).
          exists l'. split; [done|]. simpl in *.
          split; [done|]. split; [|split; [|done]].
          -- intros _. destruct (decide (Exists (λ c, type c = ON_CLAUSE) cs))
               as [Hex|Hex].
             ++ destruct (Hon Hex) as [Hs Hc']. split; [done|].
                intros c' Hc''. destruct (Hc' c' Hc'') as [?|[= <-]]; [by left|].
                by left.
             ++ rewrite (Hoff Hex). split; [by eexists|].
                intros c' [= <-]. by left.
          -- intros Hex. exfalso. apply Hex. by left.
        * unfold bind at 1. simpl.
          edestruct IH as (l' & -> & Ht & Hon & Hoff & Hm).
          exists l'. split; [done|]. split; [done|].
          split; [|split; [|done]].
          -- intros Hex. apply Exists_cons in Hex as [Hex|Hex]; [congruence|].
             by apply Hon.
          -- intros Hex. apply Hoff. intros Hex'. apply Hex. by right. }
  destruct (Hgen (children j) init w) as (l' & E & Ht & Hon & Hoff & Hm).
  rewrite (bind_Returned _ _ _ _ _ E). simpl in Ht, Hm.
  assert (join_table l' =
            last (filter (λ c, type c = TABLE_NAME) (children j)) ≫= value) as Ht'.
  { rewrite Ht. by destruct (last _). }
  rewrite <- Ht'.
  destruct (decide (truthy (join_table l') = true ∧
                    Exists (λ c, type c = ON_CLAUSE) (children j)))
    as [[Htr Hex]|Hno].
  - destruct (Hon Hex) as [[c Hc] Hc']. rewrite Hc, Htr.
    destruct (Hc' c Hc) as [(Hl & Hr & Hop)|Hbad]; [|done].
    rewrite Hl, Hr, Hop, Hm.
    eexists _, _. split; [reflexivity|]. split; [done|].
    unfold JOIN, ON. simpl. by rewrite <- app_assoc.
  - destruct (join_cond l') as [c|] eqn:Hc.
    + destruct (truthy (join_table l')) eqn:Htr.
      * exfalso. apply Hno. split; [done|].
        destruct (decide (Exists (λ c, type c = ON_CLAUSE) (children j)))
          as [|Hn]; [done|].
        specialize (Hoff Hn). unfold init in Hoff. discriminate Hoff.
      * by eexists _, _.
    + by eexists _, _.
Qed.

Lemma join_clauses_spec node info w ti' w' :
  _analyze_join_clauses node info w = (Returned ti', w') →
  main_table ti' = main_table info ∧
  quadruples (self w') =
    quadruples (self w) ++
      join_quadruples (main_table info) (temp_counter (self w))
        (filter emits_join (children node)) ∧
  temp_counter (self w') =
    temp_counter (self w) + length (filter emits_join (children node)).
Proof.
  unfold _analyze_join_clauses.
  revert info w. induction (children node) as [|c cs IH]; intros info w; simpl.
  - intros [= <- <-]. unfold join_quadruples. simpl.
    by rewrite app_nil_r, Nat.add_0_r.
  - destruct (decide (type c = JOIN_CLAUSE)) as [Hc|Hc].
    + destruct (join_clause_spec c info w) as (info1 & w1 & E1 & Hm1 & Hq1).
      rewrite (bind_Returned _ _ _ _ _ E1). intros E.
      apply IH in E as (Hm & Hq & Hn). rewrite Hm1 in Hm, Hq.
      split; [done|].
      destruct (decide (truthy (joined_table c) = true ∧
                        Exists (λ c, type c = ON_CLAUSE) (children c)))
        as [Hem|Hem].
      * destruct Hq1 as [Hq1 Hn1].
        rewrite filter_cons_True by (by destruct Hem).
        rewrite Hq, Hn, Hq1, Hn1. unfold join_quadruples. simpl.
        rewrite <- app_assoc. simpl. rewrite Nat.add_0_r.
        split; [|lia]. do 4 f_equal.
        apply imap_ext. intros i x _. simpl. do 3 f_equal. lia.
      * destruct Hq1 as [Hq1 Hn1].
        rewrite filter_cons_False by (intros (? & ? & ?); by apply Hem).
        by rewrite Hq, Hn, Hq1, Hn1.
    + unfold bind at 1, ret at 1. intros E.
      apply IH in E as (Hm & Hq & Hn).
      rewrite filter_cons_False by (by intros (? & _)). done.
Qed.

(** *** Quadruples of the later clauses *)

Global Instance appends_only_refl P : Reflexive (appends_only P).
Proof. intros w. exists []. by rewrite app_nil_r. Qed.

Global Instance appends_only_trans P : Transitive (appends_only P).
Proof.
  intros w1 w2 w3 (q1 & Hq1 & HP1) (q2 & Hq2 & HP2).
  exists (q1 ++ q2). split; [by rewrite Hq2, Hq1, app_assoc|].
  by apply Forall_app.
Qed.

Lemma appends_only_emit P o a b r :
  P (mkQuadruple o a b r) → preserves (appends_only P) (_emit o a b r).
Proof. intros HP w. eexists. split; [done|]. by apply Forall_singleton. Qed.

Lemma appends_only_generate_temp P : preserves (appends_only P) _generate_temp.
Proof. intros w. exists []. by rewrite app_nil_r. Qed.

Lemma appends_not_join_later_clauses node :
  preserves (appends_only not_join) (later_clauses node).
Proof.
  unfold later_clauses, _analyze_where_clause, _analyze_group_by_clause,
    _analyze_having_clause, _analyze_order_by_clause, _analyze_condition, str_join.
  repeat preserves_step
    ltac:(first [ apply appends_only_generate_temp
                | apply appends_only_emit; by split ]).
Qed.

(** *** When the later clauses return *)

Lemma group_columns_named gs cols :
  Forall is_Some cols →
  Forall (λ g, type g = IDENTIFIER → is_Some (value g)) gs →
  Forall is_Some
    (foldl (λ cols grandchild,
              if decide (type grandchild = IDENTIFIER)
              then cols ++ [value grandchild] else cols) cols gs).
Proof.
  revert cols. induction gs as [|g gs IH]; intros cols Hc Hg; simpl; [done|].
  apply Forall_cons in Hg as [Hg Hgs]. apply IH; [|done].
  destruct (decide (type g = IDENTIFIER)); [|done].
  apply Forall_app. split; [done|]. apply Forall_singleton. by apply Hg.
Qed.

Lemma str_join_returns sep items w :
  Forall is_Some items → ∃ s, str_join sep items w = (Returned s, w).
Proof.
  intros Hall. unfold str_join.
  assert (is_Some (mapM id items)) as [strs ->]; [|by eexists].
  apply mapM_is_Some. by eapply Forall_impl.
Qed.

Lemma group_by_emit_returns cols (gi : group_info) w :
  Forall is_Some cols →
  ∃ w', (group_temp <- _generate_temp ;;
         joined <- str_join "," cols ;;
         call_emit [PStr "GROUP_BY"; PStr joined; PNone; PStr group_temp] ;;;
         ret gi) w = (Returned gi, w').
Proof.
  intros Hall. unfold str_join.
  assert (is_Some (mapM id cols)) as [strs ->]; [|by eexists].
  apply mapM_is_Some. by eapply Forall_impl.
Qed.

Lemma group_by_clause_returns node w :
  group_by_named node →
  ∃ gi w', _analyze_group_by_clause node w = (Returned gi, w').
Proof.
  unfold group_by_named, _analyze_group_by_clause.
  match goal with |- context [fold_each _ ?i ?b] => set (body := b); set (init := i) end.
  assert (Forall is_Some (group_columns init)) as Hinit by constructor.
  revert Hinit. generalize init. clear init. revert w.
  induction (children node) as [|c cs IH]; intros w info Hinfo Hall; simpl.
  - by eexists _, _.
  - apply Forall_cons in Hall as [Hc Hall]. unfold body at 1.
    destruct (decide (type c = GROUP_BY_CLAUSE)) as [Ht|Ht].
    + pose proof (group_columns_named (children c) (group_columns info) Hinfo (Hc Ht))
        as Hcols.
      destruct (foldl _ (group_columns info) (children c)) as [|x cols] eqn:Ef.
      * unfold bind at 1, ret at 1. by apply IH.
      * cbv beta iota zeta.
        edestruct (group_by_emit_returns (x :: cols)
                     {| group_columns := x :: cols; has_group_by := true |} w)
          as [w' E]; [done|].
        rewrite (bind_Returned _ _ _ _ _ E). by apply IH.
    + unfold bind at 1, ret at 1. by apply IH.
Qed.

Lemma later_clauses_returns node w :
  Forall (λ c, type c ≠ WHERE_CLAUSE) (children node) →
  Forall (λ c, type c ≠ HAVING_CLAUSE) (children node) →
  group_by_named node →
  ∃ w', later_clauses node w = (Returned tt, w').
Proof.
  intros Hw Hh Hg. unfold later_clauses.
  rewrite (bind_Returned _ _ _ _ _ (where_clause_absent node w Hw)).
  destruct (group_by_clause_returns node w Hg) as (gi & w1 & E1).
  rewrite (bind_Returned _ _ _ _ _ E1).
  rewrite (bind_Returned _ _ _ _ _ (having_clause_absent node w1 Hh)).
  destruct (never_raises_order_by_clause node w1) as [[] Ho].
  destruct (_analyze_order_by_clause node w1) as [r w2]. simpl in Ho. subst r.
  by eexists.
Qed.

(** *** The shape of the buffer *)

(** [_analyze_select_statement] up to the join clauses: the buffer gains
    [BEGIN], the aggregate quadruples and the join quadruples; the later
    clauses decide whether the closing quadruples follow. *)
Lemma select_statement_shape node w :
  ∃ ti w2 si w3 ti' w4,
    _analyze_from_clause node (call_emit [PStr "BEGIN"; PNone; PNone; PNone] w).2
      = (Returned ti, w2) ∧
    _analyze_select_list node w2 = (Returned si, w3) ∧
    _analyze_join_clauses node ti w3 = (Returned ti', w4) ∧
    main_table ti' = main_table_of node ∧
    quadruples (self w4) =
      quadruples (self w) ++
        BEGIN :: aggregate_quadruples (temp_counter (self w)) (aggregate_nodes node) ++
          join_quadruples (main_table_of node)
            (temp_counter (self w) + length (aggregate_nodes node))
            (filter emits_join (children node)) ∧
    match later_clauses node w4 with
    | (Returned _, w5) => _analyze_select_statement node w = finish si ti' w5
    | (Raised e, w5) => _analyze_select_statement node w = (Raised e, w5)
    end.
Proof.
  destruct (select_statement_outcome node w)
    as (ti & w2 & si & w3 & ti' & w4 & E1 & E2 & E3 & Eb).
  exists ti, w2, si, w3, ti', w4. do 3 (split; [done|]).
  destruct (from_clause_spec _ _ _ _ E1) as (Hm1 & Hq1 & Hn1 & _).
  destruct (select_list_spec _ _ _ _ E2) as (Hq2 & Hn2).
  destruct (join_clauses_spec _ _ _ _ _ E3) as (Hm3 & Hq3 & Hn3).
  split; [congruence|]. split; [|done].
  rewrite Hq3, Hq2, Hq1, Hn2, Hn1, Hm1. simpl.
  by rewrite <- !app_assoc.
Qed.

(** The same for [analyze], which starts from an empty buffer and from the
    counters at 0. *)
Lemma analyze_select_shape ast w :
  type ast = SELECT_STMT →
  ∃ si w2 w3 w4 late,
    _analyze_select_list ast w2 = (Returned si, w3) ∧
    symbol_table (self w4) = symbol_table (self w2) ∧
    (Forall (λ c, type c ≠ TABLE_NAME) (children ast) →
     symbol_table (self w2) = symbol_table (self w)) ∧
    Forall not_join late ∧
    ((∃ w5 t,
        later_clauses ast w4 = (Returned tt, w5) ∧
        (analyze ast w).1 = Returned (quadruples (self (analyze ast w).2)) ∧
        quadruples (self (analyze ast w).2) =
          BEGIN :: aggregate_quadruples 0 (aggregate_nodes ast) ++
            join_quadruples (main_table_of ast) (length (aggregate_nodes ast))
              (filter emits_join (children ast)) ++
            late ++ [SELECT (columns si) (of_optional (main_table_of ast)) t;
                     OUTPUT t; END] ∧
        reported (analyze ast w).2 = reported w ∧
        symbol_table (self (analyze ast w).2) = symbol_table (self w4)) ∨
     (∃ e w5,
        later_clauses ast w4 = (Raised e, w5) ∧
        (analyze ast w).1 = Returned [] ∧
        quadruples (self (analyze ast w).2) =
          BEGIN :: aggregate_quadruples 0 (aggregate_nodes ast) ++
            join_quadruples (main_table_of ast) (length (aggregate_nodes ast))
              (filter emits_join (children ast)) ++ late)).
Proof.
  intros Ht.
  destruct (select_statement_shape ast (start_of_pass w))
    as (ti & w2 & si & w3 & ti' & w4 & E1 & E2 & E3 & Hm & Hq & Eb).
  simpl in Hq.
  pose proof (appends_not_join_later_clauses ast w4) as (late & Hlate & Hnj).
  pose proof (same_symbols_later_clauses ast w4) as Hs5.
  pose proof (extends_later_clauses ast w4) as (_ & Hr5 & _).
  pose proof (same_symbols_select_list ast w2) as Hs3. rewrite E2 in Hs3.
  pose proof (same_symbols_join_clauses ast ti w3) as Hs4. rewrite E3 in Hs4.
  pose proof (extends_select_list ast w2) as (_ & Hr3 & _). rewrite E2 in Hr3.
  pose proof (extends_join_clauses ast ti w3) as (_ & Hr4 & _). rewrite E3 in Hr4.
  pose proof (extends_from_clause ast
    (call_emit [PStr "BEGIN"; PNone; PNone; PNone] (start_of_pass w)).2)
    as (_ & Hr2 & _).
  rewrite E1 in Hr2. simpl in *.
  exists si, w2, w3, w4, late. split; [done|].
  split; [unfold same_symbols in *; congruence|].
  split.
  { intros Hall. destruct (from_clause_spec _ _ _ _ E1) as (_ & _ & _ & Hw).
    by rewrite (Hw Hall). }
  split; [done|].
  destruct (later_clauses ast w4) as [[[]|e] w5]; simpl in *.
  - left. rewrite finish_run in Eb.
    rewrite (analyze_select_Returned _ _ _ Ht Eb). simpl.
    exists w5, (temp_name (S (temp_counter (self w5)))).
    split; [done|]. split; [done|].
    split; [|split; [congruence|done]].
    rewrite Hlate, Hq, Hm. simpl. by rewrite <- !app_assoc.
  - right. rewrite (analyze_select_Raised _ _ _ _ Ht Eb). simpl.
    exists e, w5. split; [done|]. split; [done|].
    rewrite Hlate, Hq. simpl. by rewrite <- !app_assoc.
Qed.

(** *** The column specification *)

Lemma fold_each_app {A S} (xs ys : list A) (s : S) body w :
  fold_each (xs ++ ys) s body w =
    match fold_each xs s body w with
    | (Returned s', w') => fold_each ys s' body w'
    | (Raised e, w') => (Raised e, w')
    end.
Proof.
  revert s w. induction xs as [|x xs IH]; intros s w; simpl; [done|].
  unfold bind. destruct (body s x w) as [[s'|e] w']; [apply IH | done].
Qed.

Lemma column_list_keeps_wildcard cs info w info' w' :
  columns info = PStr "*" →
  Forall keeps_wildcard cs →
  fold_each cs info column_list_step w = (Returned info', w') →
  columns info' = PStr "*".
Proof.
  revert info w. induction cs as [|c cs IH]; intros info w Hc Hall; simpl.
  - by intros [= <- <-].
  - apply Forall_cons in Hall as [[Hagg Hid] Hall].
    unfold column_list_step at 1.
    destruct (decide (type c = IDENTIFIER)) as [Ht|Ht].
    + rewrite decide_True by auto. unfold bind at 1, ret at 1.
      by apply IH.
    + rewrite decide_False by done. unfold bind at 1, ret at 1.
      by apply IH.
Qed.

Lemma column_list_wildcard pre star post info w info' w' :
  type star = IDENTIFIER →
  value star = Some "*" →
  Forall keeps_wildcard post →
  fold_each (pre ++ star :: post) info column_list_step w = (Returned info', w') →
  columns info' = PStr "*".
Proof.
  intros Ht Hv Hpost. rewrite fold_each_app.
  destruct (column_list_spec pre info w) as (info1 & w1 & -> & _).
  simpl. unfold column_list_step at 1.
  rewrite decide_True by done. rewrite decide_True by done.
  unfold bind at 1, ret at 1.
  by apply column_list_keeps_wildcard.
Qed.

Lemma select_list_wildcard node cl pre star post w si w' :
  first_column_list node = Some cl →
  children cl = pre ++ star :: post →
  type star = IDENTIFIER →
  value star = Some "*" →
  Forall keeps_wildcard post →
  _analyze_select_list node w = (Returned si, w') →
  columns si = PStr "*".
Proof.
  unfold _analyze_select_list, first_column_list.
  rewrite select_list_loop_first. intros -> Hcs Ht Hv Hpost.
  unfold _analyze_column_list. rewrite Hcs.
  by apply column_list_wildcard.
Qed.

Lemma filter_none {A} (P : A → Prop) `{∀ x, Decision (P x)} (xs : list A) :
  Forall (λ x, ¬ P x) xs → filter P xs = [].
Proof.
  induction 1 as [|x xs Hx _ IH]; [done|]. by rewrite filter_cons_False.
Qed.

(** *** The symbol table *)

(** What [analyze] does on a select statement, clause by clause. *)
Lemma analyze_select_phases ast w :
  type ast = SELECT_STMT →
  ∃ ti w2 si w3 ti' w4,
    _analyze_from_clause ast
      (call_emit [PStr "BEGIN"; PNone; PNone; PNone] (start_of_pass w)).2
      = (Returned ti, w2) ∧
    _analyze_select_list ast w2 = (Returned si, w3) ∧
    _analyze_join_clauses ast ti w3 = (Returned ti', w4) ∧
    match later_clauses ast w4 with
    | (Returned _, w5) =>
        analyze ast w =
          (Returned (quadruples (self (finish si ti' w5).2)), (finish si ti' w5).2)
    | (Raised e, w5) =>
        analyze ast w =
          (Returned [], {| self := self w5; reported := reported w5 ++ [e];
                           issued := issued w5 |})
    end.
Proof.
  intros Ht.
  destruct (select_statement_outcome ast (start_of_pass w))
    as (ti & w2 & si & w3 & ti' & w4 & E1 & E2 & E3 & Eb).
  exists ti, w2, si, w3, ti', w4. do 3 (split; [done|]).
  destruct (later_clauses ast w4) as [[[]|e] w5].
  - rewrite finish_run in Eb. rewrite finish_run.
    by rewrite (analyze_select_Returned _ _ _ Ht Eb).
  - by rewrite (analyze_select_Raised _ _ _ _ Ht Eb).
Qed.

Lemma from_clause_symbols node w ti w2 :
  _analyze_from_clause node w = (Returned ti, w2) →
  ∀ name,
    symbol_table (self w2) !! name =
      if decide (name ∈ table_names node) then Some (table_symbol name)
      else symbol_table (self w) !! name.
Proof.
  unfold _analyze_from_clause, table_names.
  match goal with |- context [fold_each _ ?i ?b] => set (body := b); generalize i end.
  revert w. induction (children node) as [|c cs IH]; intros w info; simpl.
  - by intros [= <- <-] name.
  - unfold body at 1. destruct (decide (type c = TABLE_NAME)) as [Hc|Hc].
    + rewrite filter_cons_True by done. unfold bind at 1. simpl.
      intros E name. rewrite (IH _ _ E name). clear IH E. simpl.
      unfold SymbolTable.add_symbol, SymbolTable.t. simpl.
      destruct (decide (name ∈ value <$> filter (λ c, type c = TABLE_NAME) cs))
        as [Hin|Hout].
      * rewrite decide_True; [done|]. by right.
      * destruct (decide (name = value c)) as [->|Hne].
        -- rewrite decide_True by left. by rewrite lookup_insert_eq.
        -- rewrite decide_False.
           ++ by rewrite lookup_insert_ne.
           ++ intros Hin. apply elem_of_cons in Hin as [?|?]; done.
    + rewrite filter_cons_False by done. unfold bind at 1. simpl.
      intros E name. by rewrite (IH _ _ E name).
Qed.

Lemma analyze_symbol_table ast w name :
  type ast = SELECT_STMT →
  symbol_table (self (analyze ast w).2) !! name =
    if decide (name ∈ table_names ast) then Some (table_symbol name)
    else symbol_table (self w) !! name.
Proof.
  intros Ht.
  destruct (analyze_select_phases ast w Ht)
    as (ti & w2 & si & w3 & ti' & w4 & E1 & E2 & E3 & Ea).
  pose proof (same_symbols_select_list ast w2) as Hs3. rewrite E2 in Hs3.
  pose proof (same_symbols_join_clauses ast ti w3) as Hs4. rewrite E3 in Hs4.
  pose proof (same_symbols_later_clauses ast w4) as Hs5.
  pose proof (from_clause_symbols _ _ _ _ E1 name) as Hf.
  change (symbol_table (self (call_emit [PStr "BEGIN"; PNone; PNone; PNone]
                                (start_of_pass w)).2))
    with (symbol_table (self w)) in Hf.
  rewrite <- Hf. clear Hf.
  destruct (later_clauses ast w4) as [[[]|e] w5]; rewrite Ea;
    [rewrite finish_run|]; unfold same_symbols in *; simpl in *; congruence.
Qed.

(** *** When the analysis of a select statement completes *)

Lemma group_columns_fold gs cols :
  foldl (λ cols grandchild,
           if decide (type grandchild = IDENTIFIER)
           then cols ++ [value grandchild] else cols) cols gs =
    cols ++ (value <$> filter (λ g, type g = IDENTIFIER) gs).
Proof.
  revert cols. induction gs as [|g gs IH]; intros cols; simpl.
  - by rewrite app_nil_r.
  - rewrite IH. destruct (decide (type g = IDENTIFIER)).
    + rewrite filter_cons_True by done. by rewrite <- app_assoc.
    + by rewrite filter_cons_False.
Qed.

Lemma named_group_by_names c :
  Forall (λ g, type g = IDENTIFIER → is_Some (value g)) (children c) ↔
  Forall is_Some (group_by_names c).
Proof.
  unfold group_by_names. rewrite Forall_fmap.
  induction (children c) as [|g gs IH]; [done|].
  rewrite Forall_cons, IH. destruct (decide (type g = IDENTIFIER)).
  - rewrite filter_cons_True by done. rewrite Forall_cons. simpl. tauto.
  - rewrite filter_cons_False by done. tauto.
Qed.

Lemma str_join_raises sep items w :
  ¬ Forall is_Some items →
  str_join sep items w = (Raised (TypeError join_item_not_str), w).
Proof.
  intros Hno. unfold str_join. destruct (mapM id items) as [strs|] eqn:E; [|done].
  exfalso. apply Hno. assert (is_Some (mapM id items)) as Hs by (by eexists).
  apply mapM_is_Some in Hs. by eapply Forall_impl.
Qed.

Lemma group_by_clause_raises node w :
  ¬ group_by_named node →
  (_analyze_group_by_clause node w).1 = Raised (TypeError join_item_not_str).
Proof.
  unfold group_by_named, _analyze_group_by_clause.
  match goal with |- context [fold_each _ ?i ?b] => set (body := b); set (init := i) end.
  assert (Forall is_Some (group_columns init)) as Hinit by constructor.
  revert Hinit. generalize init. clear init. revert w.
  induction (children node) as [|c cs IH]; intros w info Hinfo Hbad; simpl.
  - exfalso. apply Hbad. constructor.
  - unfold body at 1. destruct (decide (type c = GROUP_BY_CLAUSE)) as [Ht|Ht].
    + rewrite group_columns_fold. fold (group_by_names c).
      destruct (decide (Forall is_Some (group_by_names c))) as [Hn|Hn].
      * assert (Forall is_Some (group_columns info ++ group_by_names c)) as Hcols
          by (by apply Forall_app).
        assert (¬ Forall (λ c, type c = GROUP_BY_CLAUSE →
                    Forall (λ g, type g = IDENTIFIER → is_Some (value g))
                           (children c)) cs) as Hbad'.
        { intros Hall. apply Hbad. constructor; [|done].
          intros _. by apply named_group_by_names. }
        destruct (group_columns info ++ group_by_names c) as [|x cols] eqn:Ec.
        -- unfold bind at 1, ret at 1. by apply IH.
        -- cbv beta iota zeta.
           edestruct (group_by_emit_returns (x :: cols)
                        {| group_columns := x :: cols; has_group_by := true |} w)
             as [w' E]; [done|].
           rewrite (bind_Returned _ _ _ _ _ E). by apply IH.
      * assert (¬ Forall is_Some (group_columns info ++ group_by_names c)) as Hcols.
        { intros Hall. apply Forall_app in Hall as [_ ?]. done. }
        destruct (group_columns info ++ group_by_names c) as [|x cols] eqn:Ec.
        -- exfalso. apply Hcols. constructor.
        -- cbv beta iota zeta.
           rewrite (bind_Raised _ _ w (TypeError join_item_not_str)
                      (_generate_temp w).2); [done|].
           rewrite (bind_Returned _generate_temp _ w _ _ eq_refl).
           by rewrite (bind_Raised _ _ _ _ _ (str_join_raises "," (x :: cols) _ Hcols)).
    + unfold bind at 1, ret at 1. apply IH; [done|].
      intros Hall. apply Hbad. by constructor.
Qed.

Lemma Exists_or_Forall_not {A} (P : A → Prop) (xs : list A) :
  ¬ Exists P xs → Forall (λ x, ¬ P x) xs.
Proof.
  induction xs as [|x xs IH]; intros Hno; constructor.
  - intros Hx. apply Hno. by left.
  - apply IH. intros Hex. apply Hno. by right.
Qed.

(** How the later clauses end, read off the children of the node. *)
Lemma later_clauses_outcome node w :
  match aborting_error node with
  | Some e => (later_clauses node w).1 = Raised e
  | None => ∃ w', later_clauses node w = (Returned tt, w')
  end.
Proof.
  unfold aborting_error.
  destruct (decide (Exists (λ c, type c = WHERE_CLAUSE) (children node)))
    as [Hw|Hw]; [by apply later_clauses_where|].
  apply Exists_or_Forall_not in Hw.
  destruct (decide (group_by_named node)) as [Hg|Hg].
  - destruct (decide (Exists (λ c, type c = HAVING_CLAUSE) (children node)))
      as [Hh|Hh].
    + unfold later_clauses.
      rewrite (bind_Returned _ _ _ _ _ (where_clause_absent node w Hw)).
      destruct (group_by_clause_returns node w Hg) as (gi & w1 & E1).
      rewrite (bind_Returned _ _ _ _ _ E1).
      pose proof (having_clause_raises node w1 Hh) as Hr.
      unfold bind. destruct (_analyze_having_clause node w1) as [r w2].
      simpl in Hr. by subst r.
    + apply Exists_or_Forall_not in Hh. by apply later_clauses_returns.
  - unfold later_clauses.
    rewrite (bind_Returned _ _ _ _ _ (where_clause_absent node w Hw)).
    pose proof (group_by_clause_raises node w Hg) as Hr.
    unfold bind. destruct (_analyze_group_by_clause node w) as [r w2].
    simpl in Hr. by subst r.
Qed.

Lemma analyze_select_outcome ast w :
  type ast = SELECT_STMT →
  match aborting_error ast with
  | Some e => (analyze ast w).1 = Returned [] ∧
              reported (analyze ast w).2 = reported w ++ [e]
  | None => (∃ mid cols table t,
               (analyze ast w).1 =
                 Returned (BEGIN :: mid ++ [SELECT cols table t; OUTPUT t; END])) ∧
            reported (analyze ast w).2 = reported w
  end.
Proof.
  intros Ht.
  destruct (analyze_select_shape ast w Ht)
    as (si & w2 & w3 & w4 & late & _ & _ & _ & _ & Hcases).
  pose proof (later_clauses_outcome ast w4) as Hout.
  pose proof (extends_later_clauses ast w4) as (_ & Hr5 & _).
  destruct (aborting_error ast) as [e|] eqn:Ee.
  - destruct (analyze_select_aborts (λ e', e' = e) ast w Ht) as (e' & -> & Hr & Hrep);
      [|done].
    intros w'. exists e. split; [|done].
    pose proof (later_clauses_outcome ast w') as Hout'. by rewrite Ee in Hout'.
  - destruct Hout as [w5' E5].
    destruct Hcases as [(w5 & t & _ & Hr & Hq & Hrep & _)|(e & w5 & E & _)];
      [|congruence].
    split; [|done]. rewrite Hr, Hq.
    exists (aggregate_quadruples 0 (aggregate_nodes ast) ++
            join_quadruples (main_table_of ast) (length (aggregate_nodes ast))
              (filter emits_join (children ast)) ++ late).
    eexists _, _, _. by rewrite <- !app_assoc.
Qed.

(** *** The sequence returned for a select statement *)

(** A completed analysis, clause by clause. *)
Lemma analyze_success ast w qs :
  type ast = SELECT_STMT →
  (analyze ast w).1 = Returned qs →
  qs ≠ [] →
  ∃ ti w2 si w3 ti' w4 w5,
    _analyze_select_list ast w2 = (Returned si, w3) ∧
    _analyze_join_clauses ast ti w3 = (Returned ti', w4) ∧
    later_clauses ast w4 = (Returned tt, w5) ∧
    temp_counter (self w2) = 0 ∧
    quadruples (self w4) =
      BEGIN :: aggregate_quadruples 0 (aggregate_nodes ast) ++
        join_quadruples (main_table_of ast) (length (aggregate_nodes ast))
          (filter emits_join (children ast)) ∧
    qs = quadruples (self w5) ++
           [SELECT (columns si) (of_optional (main_table_of ast))
                   (temp_name (S (temp_counter (self w5))));
            OUTPUT (temp_name (S (temp_counter (self w5)))); END] ∧
    temp_counter (self (analyze ast w).2) = S (temp_counter (self w5)) ∧
    issued (analyze ast w).2 =
      issued w5 ++ [temp_name (S (temp_counter (self w5)))].
Proof.
  intros Ht Hr Hne.
  destruct (analyze_select_phases ast w Ht)
    as (ti & w2 & si & w3 & ti' & w4 & E1 & E2 & E3 & Ea).
  destruct (from_clause_spec _ _ _ _ E1) as (Hm1 & Hq1 & Hn1 & _).
  destruct (select_list_spec _ _ _ _ E2) as (Hq2 & Hn2).
  destruct (join_clauses_spec _ _ _ _ _ E3) as (Hm3 & Hq3 & Hn3).
  simpl in Hq1, Hn1.
  exists ti, w2, si, w3, ti', w4.
  destruct (later_clauses ast w4) as [[[]|e] w5].
  - exists w5. rewrite finish_run in Ea. rewrite Ea in Hr |- *. simpl in *.
    injection Hr as <-.
    do 4 (split; [done|]). split; [|split; [congruence|done]].
    rewrite Hq3, Hq2, Hq1, Hn2, Hn1, Hm1. simpl. by rewrite <- ?app_assoc.
  - rewrite Ea in Hr. simpl in Hr. by injection Hr as <-.
Qed.

Lemma where_clause_Returned node w w' :
  _analyze_where_clause node w = (Returned tt, w') → w' = w.
Proof.
  intros E.
  destruct (decide (Exists (λ c, type c = WHERE_CLAUSE) (children node)))
    as [Hw|Hw].
  - pose proof (where_clause_raises node w Hw) as Hr. by rewrite E in Hr.
  - apply Exists_or_Forall_not in Hw.
    rewrite (where_clause_absent node w Hw) in E. by injection E.
Qed.

Lemma having_clause_Returned node w w' :
  _analyze_having_clause node w = (Returned tt, w') → w' = w.
Proof.
  intros E.
  destruct (decide (Exists (λ c, type c = HAVING_CLAUSE) (children node)))
    as [Hw|Hw].
  - pose proof (having_clause_raises node w Hw) as Hr. by rewrite E in Hr.
  - apply Exists_or_Forall_not in Hw.
    rewrite (having_clause_absent node w Hw) in E. by injection E.
Qed.

Lemma appends_group_by node :
  preserves (appends_only is_group_by) (_analyze_group_by_clause node).
Proof.
  unfold _analyze_group_by_clause, str_join.
  repeat preserves_step
    ltac:(first [ apply appends_only_generate_temp
                | apply appends_only_emit; reflexivity ]).
Qed.

Lemma appends_order_by node :
  preserves (appends_only is_order_by) (_analyze_order_by_clause node).
Proof.
  unfold _analyze_order_by_clause.
  repeat preserves_step
    ltac:(first [ apply appends_only_generate_temp
                | apply appends_only_emit; reflexivity ]).
Qed.

Lemma later_clauses_Returned node w w' :
  later_clauses node w = (Returned tt, w') →
  ∃ gs os,
    quadruples (self w') = quadruples (self w) ++ gs ++ os ∧
    Forall is_group_by gs ∧ Forall is_order_by os.
Proof.
  unfold later_clauses. intros E.
  apply bind_Returned_inv in E as ([] & w1 & E1 & E).
  apply bind_Returned_inv in E as (gi & w2 & E2 & E).
  apply bind_Returned_inv in E as ([] & w3 & E3 & E4).
  apply where_clause_Returned in E1 as ->.
  apply having_clause_Returned in E3 as ->.
  pose proof (appends_group_by node w) as (gs & Hgs & Hg). rewrite E2 in Hgs.
  pose proof (appends_order_by node w2) as (os & Hos & Ho). rewrite E4 in Hos.
  simpl in *. exists gs, os. split; [|done]. by rewrite Hos, Hgs, app_assoc.
Qed.

Lemma column_list_entries cs info w items :
  columns info = PList items →
  Forall (λ c, ¬ is_wildcard c) cs →
  ∃ info' w',
    fold_each cs info column_list_step w = (Returned info', w') ∧
    columns info' = PList (items ++ column_entries (temp_counter (self w)) cs).
Proof.
  revert info w items. induction cs as [|c cs IH]; intros info w items Hc Hall; simpl.
  - exists info, w. by rewrite app_nil_r.
  - apply Forall_cons in Hall as [Hw Hall].
    destruct (decide (type c = IDENTIFIER)) as [Hi|Hi].
    + unfold column_list_step at 1. rewrite decide_True by done.
      rewrite decide_False by (intros Hv; by apply Hw).
      unfold bind at 1, ret at 1. rewrite Hc. simpl.
      edestruct (IH (mkSelectInfo (PList (items ++ [value c])) (aggregates info)
                       (has_aggregates info)) w (items ++ [value c]))
        as (info' & w' & -> & Hcols); [done|done|].
      exists info', w'. split; [done|]. by rewrite Hcols, <- app_assoc.
    + destruct (decide (type c = AGGREGATE_FUNCTION)) as [Ha|Ha].
      * rewrite (bind_Returned _ _ _ _ _ (column_list_step_aggregate info c w Ha)).
        rewrite Hc. simpl.
        edestruct (IH (mkSelectInfo
                         (PList (items ++ [Some (temp_name (S (temp_counter (self w))))]))
                         (aggregates info ++
                            [(value c, temp_name (S (temp_counter (self w))))])
                         true))
          as (info' & w' & -> & Hcols); [reflexivity|done|].
        exists info', w'. split; [done|]. rewrite Hcols. simpl.
        by rewrite <- app_assoc.
      * unfold column_list_step at 1. rewrite !decide_False by done.
        unfold bind at 1, ret at 1. by apply IH.
Qed.

(** *** The [ORDER BY] clause *)

Lemma order_direction_fold cs d :
  foldl (λ direction spec_child,
           if decide (type spec_child = IDENTIFIER) then
             match value spec_child with
             | Some v => if decide (v = "ASC" ∨ v = "DESC") then v else direction
             | None => direction
             end
           else direction) d cs =
    default d (last (direction_words (Node ORDER_SPEC None cs))) ∧
  Forall (λ v, v = "ASC" ∨ v = "DESC") (direction_words (Node ORDER_SPEC None cs)).
Proof.
  unfold direction_words. simpl.
  revert d. induction cs as [|c cs IH]; intros d; simpl; [done|].
  destruct (decide (type c = IDENTIFIER)) as [Hc|Hc]; [|apply IH].
  destruct (value c) as [v|]; [|apply IH].
  destruct (decide (v = "ASC" ∨ v = "DESC")) as [Hv|Hv]; [|apply IH].
  destruct (IH v) as [-> Hall]. split; [|by constructor].
  rewrite last_cons. by destruct (last _).
Qed.

Lemma order_direction_last spec :
  order_direction spec = default "ASC" (last (direction_words spec)) ∧
  Forall (λ v, v = "ASC" ∨ v = "DESC") (direction_words spec).
Proof. apply (order_direction_fold (children spec) "ASC"). Qed.

Lemma order_specs_fold gs acc :
  foldl (λ specs grandchild,
           if decide (type grandchild = ORDER_SPEC) then
             specs ++ [format_optional (value grandchild) +:+ " "
                         +:+ order_direction grandchild]
           else specs) acc gs =
    acc ++ (order_spec_text <$> filter (λ g, type g = ORDER_SPEC) gs).
Proof.
  revert acc. induction gs as [|g gs IH]; intros acc; simpl.
  - by rewrite app_nil_r.
  - rewrite IH. destruct (decide (type g = ORDER_SPEC)).
    + rewrite filter_cons_True by done. by rewrite <- app_assoc.
    + by rewrite filter_cons_False.
Qed.

Lemma order_specs_map clause :
  order_specs clause =
    order_spec_text <$> filter (λ g, type g = ORDER_SPEC) (children clause).
Proof. apply (order_specs_fold (children clause) []). Qed.

Lemma order_specs_nil clause :
  order_specs clause = [] ↔
  ¬ Exists (λ g, type g = ORDER_SPEC) (children clause).
Proof.
  rewrite order_specs_map.
  induction (children clause) as [|g gs IH].
  - split; [|done]. intros _ Hex. by apply Exists_nil in Hex.
  - destruct (decide (type g = ORDER_SPEC)) as [Hg|Hg].
    + rewrite filter_cons_True by done. split; [done|].
      intros Hno. exfalso. apply Hno. by left.
    + rewrite filter_cons_False by done. rewrite IH. split.
      * intros Hno Hex. apply Exists_cons in Hex as [?|?]; done.
      * intros Hno Hex. apply Hno. by right.
Qed.

Lemma order_by_emit_run specs w :
  (order_temp <- _generate_temp ;;
   call_emit [PStr "ORDER_BY"; PStr specs; PNone; PStr order_temp]) w =
    (Returned tt,
     {| self :=
          {| symbol_table := symbol_table (self w);
             quadruples := quadruples (self w) ++
               [ORDER_BY specs (temp_name (S (temp_counter (self w))))];
             temp_counter := S (temp_counter (self w));
             label_counter := label_counter (self w) |};
        reported := reported w;
        issued := issued w ++ [temp_name (S (temp_counter (self w)))] |}).
Proof. reflexivity. Qed.

Example scenario4_quadruples :
  returned (analyze scenario4 fresh_world) =
  Some [BEGIN; ORDER_BY "grade DESC" "T1";
        SELECT (PList [Some "name"; Some "grade"]) (PStr "students") "T2";
        OUTPUT "T2"; END].
Proof. by vm_compute. Qed.

(** *** The [GROUP BY] clause *)

Lemma mapM_id_named (cols : list (option string)) :
  Forall is_Some cols → mapM id cols = Some (omap id cols).
Proof.
  induction 1 as [|x cols [s ->] _ IH]; [done|].
  simpl. by rewrite IH.
Qed.

Lemma omap_id_Some (strs : list string) : omap id (Some <$> strs) = strs.
Proof. induction strs as [|s strs IH]; [done|]. simpl. by f_equal. Qed.

Lemma group_by_emit_run cols (gi : group_info) w :
  Forall is_Some cols →
  (group_temp <- _generate_temp ;;
   joined <- str_join "," cols ;;
   call_emit [PStr "GROUP_BY"; PStr joined; PNone; PStr group_temp] ;;;
   ret gi) w =
    (Returned gi,
     {| self :=
          {| symbol_table := symbol_table (self w);
             quadruples := quadruples (self w) ++
               [GROUP_BY (String.concat "," (omap id cols))
                         (temp_name (S (temp_counter (self w))))];
             temp_counter := S (temp_counter (self w));
             label_counter := label_counter (self w) |};
        reported := reported w;
        issued := issued w ++ [temp_name (S (temp_counter (self w)))] |}).
Proof.
  intros Hall. unfold str_join. unfold bind at 2.
  cbv beta iota zeta delta [bind _generate_temp].
  by rewrite (mapM_id_named cols Hall).
Qed.

Lemma group_by_clause_spec node w :
  group_by_named node →
  ∃ gi w',
    _analyze_group_by_clause node w = (Returned gi, w') ∧
    group_columns gi =
      concat (group_by_names <$>
                filter (λ c, type c = GROUP_BY_CLAUSE) (children node)) ∧
    has_group_by gi =
      (if decide (filter (λ c, type c = GROUP_BY_CLAUSE) (children node) = [])
       then false else true) ∧
    quadruples (self w') =
      quadruples (self w) ++
        group_by_quadruples (temp_counter (self w)) []
          (filter (λ c, type c = GROUP_BY_CLAUSE) (children node)).
Proof.
  unfold group_by_named, _analyze_group_by_clause.
  match goal with |- context [fold_each _ ?i ?b] => set (body := b); set (init := i) end.
  assert (∀ cs info w,
    Forall is_Some (group_columns info) →
    Forall (λ c, type c = GROUP_BY_CLAUSE →
                 Forall (λ g, type g = IDENTIFIER → is_Some (value g)) (children c))
           cs →
    ∃ gi w',
      fold_each cs info body w = (Returned gi, w') ∧
      group_columns gi =
        group_columns info ++
          concat (group_by_names <$> filter (λ c, type c = GROUP_BY_CLAUSE) cs) ∧
      has_group_by gi =
        (if decide (filter (λ c, type c = GROUP_BY_CLAUSE) cs = [])
         then has_group_by info else true) ∧
      quadruples (self w') =
        quadruples (self w) ++
          group_by_quadruples (temp_counter (self w)) (group_columns info)
            (filter (λ c, type c = GROUP_BY_CLAUSE) cs)) as Hgen.
  { clear. induction cs as [|c cs IH]; intros info w Hinfo Hall.
    - exists info, w. simpl. by rewrite !app_nil_r.
    - apply Forall_cons in Hall as [Hc Hall]. cbn [fold_each]. unfold body at 1.
      destruct (decide (type c = GROUP_BY_CLAUSE)) as [Ht|Ht].
      + rewrite filter_cons_True by done.
        rewrite group_columns_fold. fold (group_by_names c).
        assert (Forall is_Some (group_columns info ++ group_by_names c)) as Hcols.
        { apply Forall_app. split; [done|]. by apply named_group_by_names, Hc. }
        cbn [group_by_quadruples fmap list_fmap concat].
        destruct (group_columns info ++ group_by_names c) as [|x cols] eqn:Ec.
        * cbv beta iota zeta. unfold bind at 1, ret at 1.
          destruct (IH (mkGroupInfo [] true) w) as (gi & w' & -> & Hg & Hh & Hq);
            [done|done|].
          exists gi, w'. split; [done|]. simpl in *.
          split; [|split; [|done]].
          -- by rewrite Hg, app_assoc, Ec.
          -- rewrite Hh. by destruct (decide _).
        * cbv beta iota zeta.
          rewrite (bind_Returned _ _ _ _ _
                     (group_by_emit_run (x :: cols) (mkGroupInfo (x :: cols) true)
                        w Hcols)).
          edestruct (IH (mkGroupInfo (x :: cols) true)) as (gi & w' & -> & Hg & Hh & Hq);
            [done|done|].
          exists gi, w'. split; [done|]. simpl in *.
          split; [|split].
          -- by rewrite Hg, app_assoc, Ec.
          -- rewrite Hh. by destruct (decide _).
          -- rewrite Hq. by rewrite <- app_assoc.
      + rewrite filter_cons_False by done. unfold bind at 1, ret at 1.
        by apply IH. }
  intros Hall. destruct (Hgen (children node) init w) as (gi & w' & E & Hg & Hh & Hq);
    [constructor | done |].
  by exists gi, w'.
Qed.

(** *** Children that no clause routine looks for *)

Lemma bind_ext {A B} (m m' : M A) (k k' : A → M B) w :
  m w = m' w → (∀ a w', k a w' = k' a w') → bind m k w = bind m' k' w.
Proof.
  intros Hm Hk. unfold bind. rewrite Hm.
  destruct (m' w) as [[a|e] w']; [apply Hk | done].
Qed.

Lemma fold_each_snoc_skip {A S} (xs : list A) (x : A) (s : S) body w :
  (∀ s, body s x = ret s) →
  fold_each (xs ++ [x]) s body w = fold_each xs s body w.
Proof.
  intros Hx. rewrite fold_each_app.
  destruct (fold_each xs s body w) as [[s'|e] w']; [|done].
  simpl. by rewrite Hx.
Qed.

Lemma select_list_loop_snoc_skip cs c info :
  type c ≠ COLUMN_LIST →
  select_list_loop (cs ++ [c]) info = select_list_loop cs info.
Proof.
  intros Hc. induction cs as [|x cs IH]; simpl.
  - by rewrite decide_False.
  - by rewrite IH.
Qed.

Lemma unknown_kind c (t : ASTNodeType) :
  clause_kind (type c) = false → clause_kind t = true → type c ≠ t.
Proof. intros Hc Ht Heq. congruence. Qed.

Lemma select_statement_add_child node c w :
  clause_kind (type c) = false →
  _analyze_select_statement (add_child node c) w =
  _analyze_select_statement node w.
Proof.
  intros Hk. unfold _analyze_select_statement.
  apply bind_ext; [done|]. intros [] w1.
  apply bind_ext.
  { unfold _analyze_from_clause.
    change (children (add_child node c)) with (children node ++ [c]).
    apply fold_each_snoc_skip. intros s.
    by rewrite decide_False by (by apply unknown_kind). }
  intros ti w2. apply bind_ext.
  { unfold _analyze_select_list.
    change (children (add_child node c)) with (children node ++ [c]).
    by rewrite select_list_loop_snoc_skip by (by apply unknown_kind). }
  intros si w3. apply bind_ext.
  { unfold _analyze_join_clauses.
    change (children (add_child node c)) with (children node ++ [c]).
    apply fold_each_snoc_skip. intros s.
    by rewrite decide_False by (by apply unknown_kind). }
  intros ti' w4. apply bind_ext.
  { unfold _analyze_where_clause, for_each.
    change (children (add_child node c)) with (children node ++ [c]).
    apply fold_each_snoc_skip. intros [].
    by rewrite decide_False by (by apply unknown_kind). }
  intros [] w5. apply bind_ext.
  { unfold _analyze_group_by_clause.
    change (children (add_child node c)) with (children node ++ [c]).
    apply fold_each_snoc_skip. intros s.
    by rewrite decide_False by (by apply unknown_kind). }
  intros gi w6. apply bind_ext.
  { unfold _analyze_having_clause, for_each.
    change (children (add_child node c)) with (children node ++ [c]).
    apply fold_each_snoc_skip. intros [].
    by rewrite decide_False by (by apply unknown_kind). }
  intros [] w7. apply bind_ext; [|done].
  unfold _analyze_order_by_clause, for_each.
  change (children (add_child node c)) with (children node ++ [c]).
  apply fold_each_snoc_skip. intros [].
  by rewrite decide_False by (by apply unknown_kind).
Qed.

Lemma analyze_add_child_unknown ast c w :
  type ast = SELECT_STMT →
  clause_kind (type c) = false →
  analyze (add_child ast c) w = analyze ast w.
Proof.
  intros Ht Hk. unfold analyze.
  apply bind_ext; [done|]. intros [] w1.
  unfold try_except.
  change (type (add_child ast c)) with (type ast).
  rewrite !decide_True by done.
  assert (bind (_analyze_select_statement (add_child ast c)) (λ _, get_quadruples) w1
          = bind (_analyze_select_statement ast) (λ _, get_quadruples) w1) as ->; [|done].
  apply bind_ext; [by apply select_statement_add_child | done].
Qed.

(** *** Table names added last, aborted passes, repeated passes *)

Lemma main_table_of_add_child node c :
  type c = TABLE_NAME → main_table_of (add_child node c) = value c.
Proof.
  intros Hc. unfold main_table_of.
  change (children (add_child node c)) with (children node ++ [c]).
  rewrite filter_app, filter_cons_True by done.
  rewrite filter_nil. by rewrite last_snoc.
Qed.

Lemma where_clause_raises_world node w :
  Exists (λ c, type c = WHERE_CLAUSE) (children node) →
  _analyze_where_clause node w =
    (Raised (TypeError too_many_positional_arguments), (_generate_temp w).2).
Proof.
  unfold _analyze_where_clause, for_each.
  induction (children node) as [|c cs IH]; intros Hex;
    [by apply Exists_nil in Hex|].
  cbn [fold_each]. destruct (decide (type c = WHERE_CLAUSE)) as [Hc|Hc].
  - reflexivity.
  - unfold bind at 1, ret at 1. apply IH.
    apply Exists_cons in Hex as [?|?]; done.
Qed.

(** *** Temporaries issued and temporaries defined *)

Lemma neutral_ret {A} (a : A) : neutral (ret a).
Proof. intros w. exists []. by rewrite app_nil_r. Qed.

Lemma neutral_raise {A} e : neutral (@raise A e).
Proof. intros w. exists []. by rewrite app_nil_r. Qed.

Lemma neutral_emit o a b r :
  defines (mkQuadruple o a b r) = None → neutral (_emit o a b r).
Proof. intros Hd w. eexists [_]. simpl. by rewrite Hd. Qed.

Lemma neutral_add_symbol sym : neutral (add_symbol sym).
Proof. intros w. exists []. by rewrite app_nil_r. Qed.

Lemma neutral_bind {A B} (m : M A) (k : A → M B) :
  neutral m → (∀ a, neutral (k a)) → neutral (bind m k).
Proof.
  intros Hm Hk w. unfold bind. destruct (Hm w) as (q1 & Hq1 & Hi1 & Hd1).
  destruct (m w) as [[a|e] w1]; simpl in *.
  - destruct (Hk a w1) as (q2 & Hq2 & Hi2 & Hd2). exists (q1 ++ q2).
    rewrite Hq2, Hq1, Hi2, Hi1, app_assoc, omap_app, Hd1, Hd2. done.
  - by exists q1.
Qed.

Lemma neutral_str_join sep items : neutral (str_join sep items).
Proof.
  unfold str_join. destruct (mapM id items); [apply neutral_ret | apply neutral_raise].
Qed.

Lemma defining_raise t {A} e : defining t (@raise A e).
Proof.
  intros w. exists []. rewrite app_nil_r.
  split; [done|]. split; [done|]. split; [by left | done].
Qed.

Lemma defining_emit t o a b r :
  defines (mkQuadruple o a b r) = Some t → defining t (_emit o a b r).
Proof.
  intros Hd w. eexists [_]. simpl. rewrite Hd.
  split; [done|]. split; [done|]. split; [by right | done].
Qed.

Lemma defining_bind_l t {A B} (m : M A) (k : A → M B) :
  defining t m → (∀ a, neutral (k a)) → defining t (bind m k).
Proof.
  intros Hm Hk w. unfold bind. destruct (Hm w) as (q1 & Hq1 & Hi1 & Ho1 & Hr1).
  destruct (m w) as [[a|e] w1]; simpl in *.
  - destruct (Hk a w1) as (q2 & Hq2 & Hi2 & Hd2). exists (q1 ++ q2).
    rewrite Hq2, Hq1, Hi2, Hi1, app_assoc, omap_app, Hd2, app_nil_r, (Hr1 a eq_refl).
    split; [done|]. split; [done|]. split; [by right | done].
  - exists q1. split; [done|]. split; [done|]. split; [done|]. intros b Hb. done.
Qed.

Lemma defining_bind_r t {A B} (m : M A) (k : A → M B) :
  neutral m → (∀ a, defining t (k a)) → defining t (bind m k).
Proof.
  intros Hm Hk w. unfold bind. destruct (Hm w) as (q1 & Hq1 & Hi1 & Hd1).
  destruct (m w) as [[a|e] w1]; simpl in *.
  - destruct (Hk a w1) as (q2 & Hq2 & Hi2 & Ho2 & Hr2). exists (q1 ++ q2).
    rewrite Hq2, Hq1, Hi2, Hi1, app_assoc, omap_app, Hd1. simpl.
    split; [done|]. split; [done|]. split; done.
  - exists q1. rewrite Hd1.
    split; [done|]. split; [done|]. split; [by left | done].
Qed.

Lemma balanced_neutral {A} (m : M A) : neutral m → balanced m.
Proof.
  intros Hm w. destruct (Hm w) as (qs & Hq & Hi & Hd).
  exists qs, []. rewrite Hd, app_nil_r.
  split; [done|]. split; [done|]. split; done.
Qed.

Lemma balanced_ret {A} (a : A) : balanced (ret a).
Proof. apply balanced_neutral, neutral_ret. Qed.

Lemma balanced_raise {A} e : balanced (@raise A e).
Proof. apply balanced_neutral, neutral_raise. Qed.

Lemma balanced_bind {A B} (m : M A) (k : A → M B) :
  balanced m → (∀ a, balanced (k a)) → balanced (bind m k).
Proof.
  intros Hm Hk w. unfold bind.
  destruct (Hm w) as (q1 & n1 & Hq1 & Hi1 & Hp1 & Hr1).
  destruct (m w) as [[a|e] w1]; simpl in *.
  - destruct (Hk a w1) as (q2 & n2 & Hq2 & Hi2 & Hp2 & Hr2).
    exists (q1 ++ q2), (n1 ++ n2).
    rewrite Hq2, Hq1, Hi2, Hi1, !app_assoc, omap_app, (Hr1 a eq_refl).
    split; [done|]. split; [done|]. split; [by apply prefix_app|].
    intros b Hb. by rewrite (Hr2 b Hb).
  - exists q1, n1. split; [done|]. split; [done|]. split; done.
Qed.

Lemma balanced_fold_each {A S} (xs : list A) (s : S) body :
  (∀ s x, balanced (body s x)) → balanced (fold_each xs s body).
Proof.
  intros Hb. revert s. induction xs as [|x xs IH]; intros s; simpl.
  - apply balanced_ret.
  - apply balanced_bind; [apply Hb | intros; apply IH].
Qed.

Lemma balanced_for_each {A} (xs : list A) body :
  (∀ x, balanced (body x)) → balanced (for_each xs body).
Proof. intros Hb. apply balanced_fold_each. intros _ x. apply Hb. Qed.

(** The temporary that [_generate_temp] returns is the one it records, and
    what follows has to define it. *)
Lemma balanced_generate_then {A} (k : string → M A) :
  (∀ t, defining t (k t)) → balanced (bind _generate_temp k).
Proof.
  intros Hk w. unfold bind.
  change (_generate_temp w)
    with (Returned (temp_name (S (temp_counter (self w)))), (_generate_temp w).2).
  cbv beta iota.
  destruct (Hk (temp_name (S (temp_counter (self w)))) (_generate_temp w).2)
    as (qs & Hq & Hi & Ho & Hr).
  exists qs, [temp_name (S (temp_counter (self w)))].
  split; [done|]. split; [done|]. split; [|done].
  destruct Ho as [->| ->]; [apply prefix_nil | done].
Qed.

Lemma defines_result o a b t :
  mkQuadruple o a b (PStr t) ≠ ON → defines (mkQuadruple o a b (PStr t)) = Some t.
Proof. intros Hne. unfold defines. simpl. by rewrite decide_False. Qed.

Ltac defines_solve :=
  first
    [ reflexivity
    | apply defines_result; unfold ON; intros [=]; done ].

Ltac neutral_solve :=
  lazymatch goal with
  | |- ∀ _, _ => intros ?; neutral_solve
  | |- neutral _ =>
      first
        [ apply neutral_ret
        | apply neutral_raise
        | apply neutral_str_join
        | apply neutral_add_symbol
        | apply neutral_emit; solve [defines_solve]
        | apply neutral_bind; neutral_solve
        | case_decide; neutral_solve
        | case_match; neutral_solve ]
  end.

Ltac defining_solve :=
  lazymatch goal with
  | |- ∀ _, _ => intros ?; defining_solve
  | |- defining _ _ =>
      first
        [ apply defining_emit; solve [defines_solve]
        | apply defining_raise
        | apply defining_bind_l; [solve [defining_solve] | solve [neutral_solve]]
        | apply defining_bind_r; [solve [neutral_solve] | solve [defining_solve]]
        | case_decide; defining_solve
        | case_match; defining_solve ]
  end.

Ltac balanced_step prim :=
  lazymatch goal with
  | |- ∀ _, _ => intros ?
  | |- balanced (bind _generate_temp _) =>
      apply balanced_generate_then; solve [defining_solve]
  | |- balanced _ =>
      first
        [ prim
        | apply balanced_neutral; solve [neutral_solve]
        | apply balanced_bind
        | apply balanced_fold_each
        | apply balanced_for_each
        | case_decide
        | case_match ]
  end.

Lemma balanced_select_list node : balanced (_analyze_select_list node).
Proof.
  unfold _analyze_select_list. generalize (mkSelectInfo (PList []) [] false).
  induction (children node) as [|c cs IH]; intros info; simpl.
  - apply balanced_ret.
  - case_decide; [|apply IH].
    unfold _analyze_column_list, column_list_step, _get_aggregate_column.
    repeat balanced_step fail.
Qed.

Lemma balanced_join_clause node info : balanced (_analyze_join_clause node info).
Proof.
  intros w. unfold _analyze_join_clause.
  match goal with |- context [fold_each _ ?i ?b] => set (body := b); set (init := i) end.
  assert (∀ cs l,
            ∃ l', fold_each cs l body w = (Returned l', w) ∧
                  (join_cond l' = join_cond l ∨
                   join_cond l' = Some (mkJoinCondition "table1.id" "table2.id" "EQ")))
    as Hgen.
  { clear. induction cs as [|c cs IH]; intros l; simpl.
    - exists l. split; [done | by left].
    - unfold body at 1. destruct (decide (type c = TABLE_NAME)).
      + unfold bind at 1, ret at 1. edestruct IH as (l' & -> & Hc).
        exists l'. split; [done|]. exact Hc.
      + destruct (decide (type c = ON_CLAUSE)).
        * unfold bind at 1. simpl. edestruct IH as (l' & -> & Hc).
          exists l'. split; [done|]. right. by destruct Hc as [-> | ->].
        * unfold bind at 1, ret at 1. apply IH. }
  destruct (Hgen (children node) init) as (l' & E & Hc).
  rewrite (bind_Returned _ _ _ _ _ E).
  destruct Hc as [-> | ->]; [apply balanced_ret|].
  destruct (truthy (join_table l')); [|apply balanced_ret].
  apply balanced_generate_then. defining_solve.
Qed.

Lemma balanced_select_statement node : balanced (_analyze_select_statement node).
Proof.
  unfold _analyze_select_statement, _analyze_from_clause, _analyze_join_clauses,
    _analyze_where_clause,
    _analyze_group_by_clause, _analyze_having_clause, _analyze_order_by_clause,
    _analyze_condition.
  repeat balanced_step
    ltac:(first [apply balanced_select_list | apply balanced_join_clause]).
Qed.

Lemma temps_from_last k : last (temps_from 0 (S k)) = Some (temp_name (S k)).
Proof.
  unfold temps_from. rewrite seq_S, fmap_app. simpl. by rewrite last_snoc.
Qed.

(** The temporaries issued in a call of [analyze] are [T1 .. Tk]; the
    quadruples left in the buffer define the first of them, in order, and a
    non-empty sequence returned defines them all. *)
Lemma analyze_defines ast w :
  ∃ k,
    issued (analyze ast w).2 = issued w ++ temps_from 0 k ∧
    temp_counter (self (analyze ast w).2) = k ∧
    label_counter (self (analyze ast w).2) = 0 ∧
    omap defines (quadruples (self (analyze ast w).2)) `prefix_of` temps_from 0 k ∧
    ∀ qs, (analyze ast w).1 = Returned qs → qs ≠ [] →
          omap defines qs = temps_from 0 k.
Proof.
  destruct (analyze_issued ast w) as (k & Hi & Hk & Hl).
  exists k. do 3 (split; [done|]).
  destruct (decide (type ast = SELECT_STMT)) as [Ht|Ht].
  - destruct (balanced_select_statement ast (start_of_pass w))
      as (qs' & new & Hq & Hn & Hp & Hr).
    destruct (_analyze_select_statement ast (start_of_pass w)) as [[[]|e] w'] eqn:E;
      simpl in Hq, Hn, Hp, Hr.
    + rewrite (analyze_select_Returned _ _ _ Ht E) in Hi |- *. simpl in *.
      rewrite Hn in Hi. apply app_inv_head in Hi. subst new.
      rewrite Hq. split; [done|].
      intros qs [= <-] _. by apply (Hr tt).
    + rewrite (analyze_select_Raised _ _ _ _ Ht E) in Hi |- *. simpl in *.
      rewrite Hn in Hi. apply app_inv_head in Hi. subst new.
      rewrite Hq. split; [done|]. by intros qs [= <-].
  - rewrite (analyze_other _ _ Ht). simpl. split; [apply prefix_nil|].
    by intros qs [= <-].
Qed.

Lemma append_column_last cols t :
  append_column cols t =
    PList (match cols with PList items => items | _ => [] end ++ [t]).
Proof. by destruct cols. Qed.

(** The entry of one aggregate function in the column list, when no
    wildcard comes after it. *)
Lemma column_list_aggregate_entry pre a post info w info' w' :
  type a = AGGREGATE_FUNCTION →
  Forall (λ c, ¬ is_wildcard c) post →
  fold_each (pre ++ a :: post) info column_list_step w = (Returned info', w') →
  ∃ before,
    columns info' =
      PList (before ++
             Some (temp_name (S (temp_counter (self w) +
                      length (filter (λ c, type c = AGGREGATE_FUNCTION) pre))))
             :: column_entries
                  (S (temp_counter (self w) +
                      length (filter (λ c, type c = AGGREGATE_FUNCTION) pre)))
                  post).
Proof.
  intros Ha Hpost. rewrite fold_each_app.
  destruct (column_list_spec pre info w) as (info1 & w1 & -> & _ & Hn1).
  cbn [fold_each].
  rewrite (bind_Returned _ _ _ _ _ (column_list_step_aggregate info1 a w1 Ha)).
  rewrite append_column_last.
  match goal with |- fold_each post ?i _ ?w2 = _ → _ =>
    destruct (column_list_entries post i w2
                (match columns info1 with PList items => items | _ => [] end ++
                 [Some (temp_name (S (temp_counter (self w1))))])
                eq_refl Hpost) as (info2 & w2' & -> & Hcols)
  end.
  intros [= <- <-]. rewrite Hcols. simpl. rewrite Hn1.
  eexists. by rewrite <- app_assoc.
Qed.

(** ** Properties of the analysis pass *)

(** C1 does not hold of the code. For a select statement that has a
    [WHERE_CLAUSE] child, the condition routine raises a [TypeError] when it
    calls [_emit] with five arguments: [analyze] returns the empty sequence,
    so no [WHERE] quadruple reaches the caller, and the handler reports the
    [TypeError]. *)
Theorem where_clause_aborts_analysis ast w :
  type ast = SELECT_STMT →
  Exists (λ c, type c = WHERE_CLAUSE) (children ast) →
  (analyze ast w).1 = Returned [] ∧
  reported (analyze ast w).2 =
    reported w ++ [TypeError too_many_positional_arguments].
Proof.
  intros Ht Hex.
  destruct (analyze_select_aborts
              (λ e, e = TypeError too_many_positional_arguments) ast w Ht)
    as (e & -> & Hr & Hrep); [|done].
  intros w'. eexists. split; [by apply later_clauses_where | done].
Qed.

Lemma where_clause_aborts_analysis_witness :
  type select_with_where = SELECT_STMT ∧
  Exists (λ c, type c = WHERE_CLAUSE) (children select_with_where) ∧
  (analyze select_with_where fresh_world).1 = Returned [] ∧
  reported (analyze select_with_where fresh_world).2 =
    reported fresh_world ++ [TypeError too_many_positional_arguments].
Proof.
  assert (Exists (λ c, type c = WHERE_CLAUSE) (children select_with_where)) as Hex.
  { simpl. do 2 apply Exists_cons_tl. by apply Exists_cons_hd. }
  split; [reflexivity|]. split; [exact Hex|].
  exact (where_clause_aborts_analysis select_with_where fresh_world eq_refl Hex).
Defined.

(** C2 does not hold of the code. An analysis of a select statement is aborted
    by an error whenever the statement has a [HAVING_CLAUSE] child: a
    [TypeError] is raised on the way, [analyze] returns the empty sequence
    and the handler reports the error. *)
Theorem having_clause_aborts_analysis ast w :
  type ast = SELECT_STMT →
  Exists (λ c, type c = HAVING_CLAUSE) (children ast) →
  ∃ why, (analyze ast w).1 = Returned [] ∧
         reported (analyze ast w).2 = reported w ++ [TypeError why].
Proof.
  intros Ht Hex.
  destruct (analyze_select_aborts is_TypeError ast w Ht)
    as (e & [why ->] & Hr & Hrep); [|by exists why].
  intros w'. by apply later_clauses_having.
Qed.

Lemma having_clause_aborts_analysis_witness :
  type select_with_having = SELECT_STMT ∧
  Exists (λ c, type c = HAVING_CLAUSE) (children select_with_having) ∧
  ∃ why, (analyze select_with_having fresh_world).1 = Returned [] ∧
         reported (analyze select_with_having fresh_world).2 =
           reported fresh_world ++ [TypeError why].
Proof.
  assert (Exists (λ c, type c = HAVING_CLAUSE) (children select_with_having)) as Hex.
  { simpl. do 3 apply Exists_cons_tl. by apply Exists_cons_hd. }
  split; [reflexivity|]. split; [exact Hex|].
  exact (having_clause_aborts_analysis select_with_having fresh_world eq_refl Hex).
Defined.

(** C3. For an AST whose root is not a select statement, [analyze] returns
    the empty sequence (it returns: no exception reaches the caller), the
    handler reports a [SemanticError] naming the unsupported root kind, and
    the quadruple buffer is left empty. *)
Theorem analyze_unsupported_root ast w :
  type ast ≠ SELECT_STMT →
  (analyze ast w).1 = Returned [] ∧
  reported (analyze ast w).2 =
    reported w ++ [SemanticError ("Unsupported statement type: "
                                    +:+ ASTNodeType_str (type ast))] ∧
  quadruples (self (analyze ast w).2) = [].
Proof. intros Ht. by rewrite (analyze_other _ _ Ht). Qed.

Lemma analyze_unsupported_root_witness :
  type (Node WHERE_CLAUSE None []) ≠ SELECT_STMT ∧
  (analyze (Node WHERE_CLAUSE None []) fresh_world).1 = Returned [] ∧
  reported (analyze (Node WHERE_CLAUSE None []) fresh_world).2 =
    reported fresh_world ++
      [SemanticError ("Unsupported statement type: "
                        +:+ ASTNodeType_str (type (Node WHERE_CLAUSE None [])))] ∧
  quadruples (self (analyze (Node WHERE_CLAUSE None []) fresh_world).2) = [].
Proof.
  split; [discriminate|].
  apply (analyze_unsupported_root (Node WHERE_CLAUSE None []) fresh_world).
  discriminate.
Defined.

(** C4, amended. When the column list of a select statement has an
    identifier ["*"] after which come no aggregate function and no
    identifier other than ["*"], and [analyze] returns a non-empty sequence,
    the final [SELECT] quadruple has the wildcard ["*"] as its [arg1],
    whatever columns and aggregate temporaries were collected before the
    wildcard. *)
Theorem wildcard_overrides_earlier_columns ast w cl pre star post qs :
  type ast = SELECT_STMT →
  first_column_list ast = Some cl →
  children cl = pre ++ star :: post →
  type star = IDENTIFIER →
  value star = Some "*" →
  Forall keeps_wildcard post →
  (analyze ast w).1 = Returned qs →
  qs ≠ [] →
  ∃ mid table t,
    qs = BEGIN :: mid ++ [SELECT (PStr "*") table t; OUTPUT t; END].
Proof.
  intros Ht Hcl Hcs Hst Hv Hpost Hr Hne.
  destruct (analyze_select_shape ast w Ht)
    as (si & w2 & w3 & w4 & late & E2 & _ & _ & _ & Hcases).
  rewrite (select_list_wildcard _ _ _ _ _ _ _ _ Hcl Hcs Hst Hv Hpost E2) in Hcases.
  destruct Hcases as [(w5 & t & _ & Hr' & Hq & _)|(e & w5 & _ & Hr' & _)].
  - rewrite Hr' in Hr. injection Hr as <-. rewrite Hq.
    exists (aggregate_quadruples 0 (aggregate_nodes ast) ++
            join_quadruples (main_table_of ast) (length (aggregate_nodes ast))
              (filter emits_join (children ast)) ++ late).
    eexists _, _. by rewrite <- !app_assoc.
  - rewrite Hr' in Hr. by injection Hr as <-.
Qed.

Lemma wildcard_overrides_earlier_columns_witness :
  ∃ mid table t,
    default [] (returned (analyze select_columns_then_wildcard fresh_world)) =
      BEGIN :: mid ++ [SELECT (PStr "*") table t; OUTPUT t; END].
Proof.
  apply (wildcard_overrides_earlier_columns
           select_columns_then_wildcard fresh_world
           (Node COLUMN_LIST None
              [leaf IDENTIFIER "name"; leaf AGGREGATE_FUNCTION "COUNT";
               leaf IDENTIFIER "*"])
           [leaf IDENTIFIER "name"; leaf AGGREGATE_FUNCTION "COUNT"]
           (leaf IDENTIFIER "*") []).
  - reflexivity.
  - reflexivity.
  - reflexivity.
  - reflexivity.
  - reflexivity.
  - constructor.
  - by vm_compute.
  - by vm_compute.
Defined.

(** C4 as stated fails: the column list holds the identifier ["*"], and
    the final [SELECT] quadruple lists the column named after it. *)
Lemma wildcard_not_final_after_column :
  type select_wildcard_then_column = SELECT_STMT ∧
  (∃ cl c, first_column_list select_wildcard_then_column = Some cl ∧
           c ∈ children cl ∧ type c = IDENTIFIER ∧ value c = Some "*") ∧
  returned (analyze select_wildcard_then_column fresh_world) =
    Some [BEGIN;
          SELECT (PList [Some "name"]) (PStr "students") "T1";
          OUTPUT "T1"; END] ∧
  PList [Some "name"] ≠ PStr "*".
Proof.
  split; [reflexivity|]. split; [|split; [by vm_compute | discriminate]].
  eexists _, _. split; [reflexivity|]. split; [by left|]. by split.
Qed.

(** C5. [analyze] is deterministic and carries nothing over from earlier
    use of the analyzer.  On any two analyzers, fresh or not, the same AST
    gives the same returned sequence and leaves the same quadruple buffer
    and the same temporary counter (so the buffer is the one a fresh
    analyzer would hold), and the label counter is 0 after both calls.  In
    both calls the temporaries issued are [T1], [T2], ... up to the same
    [Tk], [k] being the temporary counter that the call leaves; each of them
    is the name that [_generate_temp] returned; and the quadruples of a
    non-empty returned sequence define, in order, exactly [T1 .. Tk]: the
    numbering restarts at 1 in each call. *)
Theorem analyze_deterministic ast w1 w2 :
  (analyze ast w1).1 = (analyze ast w2).1 ∧
  quadruples (self (analyze ast w1).2) = quadruples (self (analyze ast w2).2) ∧
  temp_counter (self (analyze ast w1).2) = temp_counter (self (analyze ast w2).2) ∧
  label_counter (self (analyze ast w1).2) = 0 ∧
  label_counter (self (analyze ast w2).2) = 0 ∧
  (∀ w0 : World,
     (_generate_temp w0).1 = Returned (temp_name (S (temp_counter (self w0)))) ∧
     issued (_generate_temp w0).2 =
       issued w0 ++ [temp_name (S (temp_counter (self w0)))]) ∧
  ∃ k,
    temp_counter (self (analyze ast w1).2) = k ∧
    issued (analyze ast w1).2 = issued w1 ++ (temp_name <$> seq 1 k) ∧
    issued (analyze ast w2).2 = issued w2 ++ (temp_name <$> seq 1 k) ∧
    omap defines (quadruples (self (analyze ast w1).2))
      `prefix_of` (temp_name <$> seq 1 k) ∧
    ∀ qs, (analyze ast w1).1 = Returned qs → qs ≠ [] →
          omap defines qs = temp_name <$> seq 1 k.
Proof.
  destruct (analyze_independent ast w1 w2) as (Hr & Hq & Ht & _).
  destruct (analyze_defines ast w1) as (k1 & Hi1 & Hk1 & Hl1 & Hp1 & Hd1).
  destruct (analyze_defines ast w2) as (k2 & Hi2 & Hk2 & Hl2 & _).
  do 5 (split; [done|]). split; [done|].
  assert (k2 = k1) as -> by congruence.
  by exists k1.
Qed.

(** C6. When [analyze] returns a non-empty sequence for a select statement,
    the sequence opens with the [BEGIN] quadruple, closes with [END], and
    the two quadruples just before [END] are [SELECT] and then [OUTPUT] of
    the temporary that [SELECT] defines. *)
Theorem select_statement_frame ast w qs :
  type ast = SELECT_STMT →
  (analyze ast w).1 = Returned qs →
  qs ≠ [] →
  head qs = Some BEGIN ∧ last qs = Some END ∧
  ∃ mid cols table t,
    qs = BEGIN :: mid ++ [SELECT cols table t; OUTPUT t; END].
Proof.
  intros Ht Hr Hne.
  assert (∃ mid cols table t,
            qs = BEGIN :: mid ++ [SELECT cols table t; OUTPUT t; END])
    as (mid & cols & table & t & ->).
  { destruct (select_statement_outcome ast (start_of_pass w))
      as (ti & w2 & si & w3 & ti' & w4 & E1 & E2 & E3 & Eb).
    pose proof (extends_from_clause ast
      (call_emit [PStr "BEGIN"; PNone; PNone; PNone] (start_of_pass w)).2) as H1.
    rewrite E1 in H1.
    pose proof (extends_select_list ast w2) as H2. rewrite E2 in H2.
    pose proof (extends_join_clauses ast ti w3) as H3. rewrite E3 in H3.
    pose proof (extends_later_clauses ast w4) as H4.
    destruct (later_clauses ast w4) as [[[]|e] w5].
    - rewrite finish_run in Eb.
      rewrite (analyze_select_Returned _ _ _ Ht Eb) in Hr.
      simpl in Hr. injection Hr as <-.
      destruct (extends_quadruples _ _ (transitivity H1 (transitivity H2
                 (transitivity H3 H4)))) as [mid Hmid].
      simpl in Hmid. rewrite Hmid. by eexists mid, _, _, _.
    - rewrite (analyze_select_Raised _ _ _ _ Ht Eb) in Hr.
      simpl in Hr. by injection Hr as <-. }
  split; [done|]. split; [|by eauto].
  by rewrite app_comm_cons, last_app.
Qed.

Lemma select_statement_frame_witness :
  type scenario2 = SELECT_STMT ∧
  head (default [] (returned (analyze scenario2 fresh_world))) = Some BEGIN ∧
  last (default [] (returned (analyze scenario2 fresh_world))) = Some END.
Proof.
  split; [reflexivity|].
  destruct (select_statement_frame scenario2 fresh_world
              (default [] (returned (analyze scenario2 fresh_world))))
    as (Hh & Hl & _); [reflexivity | by vm_compute | by vm_compute |].
  by split.
Defined.

(** C7. Every call of [_generate_temp] returns the name [T<n>] for the
    next value [n] of the temporary counter, and records that very name.
    Within one call of [analyze] the temporaries generated are, in the order
    of their generation, ["T1"], ["T2"], ..., ["Tk"]: each has the form
    [T<n>], the numbers start at 1 and grow by one, and no name occurs
    twice.  These are the names in the quadruples: the temporaries that the
    quadruples in the buffer define are, in order, the first of them, and
    the quadruples of a non-empty returned sequence define all of them, each
    once. *)
Theorem temporaries_distinct_increasing ast w :
  (∀ w0 : World,
     (_generate_temp w0).1 =
       Returned ("T" +:+ pretty (S (temp_counter (self w0)))) ∧
     temp_counter (self (_generate_temp w0).2) = S (temp_counter (self w0)) ∧
     issued (_generate_temp w0).2 =
       issued w0 ++ ["T" +:+ pretty (S (temp_counter (self w0)))]) ∧
  ∃ k, issued (analyze ast w).2 =
         issued w ++ ((λ n, "T" +:+ pretty n) <$> seq 1 k) ∧
       NoDup ((λ n, "T" +:+ pretty n) <$> seq 1 k) ∧
       StronglySorted lt (seq 1 k) ∧
       temp_counter (self (analyze ast w).2) = k ∧
       omap defines (quadruples (self (analyze ast w).2))
         `prefix_of` ((λ n, "T" +:+ pretty n) <$> seq 1 k) ∧
       ∀ qs, (analyze ast w).1 = Returned qs → qs ≠ [] →
             omap defines qs = (λ n, "T" +:+ pretty n) <$> seq 1 k.
Proof.
  split; [done|].
  destruct (analyze_defines ast w) as (k & Hi & Hk & _ & Hp & Hd).
  exists k. split; [done|]. split; [|split; [|done]].
  - apply (NoDup_fmap_2 temp_name), NoDup_seq.
  - clear. generalize 1. induction k as [|k IH]; intros n; simpl; constructor.
    + apply IH.
    + apply Forall_forall. intros m Hm. apply elem_of_seq in Hm. lia.
Qed.

(** C8. The aggregate-function nodes of the column list give the
    quadruples that follow [BEGIN] in the buffer, one each and in order: the
    i-th node (from 0) gets the fresh temporary [T(i+1)] and the quadruple
    [(COUNT, "*", -, T)] when it is [COUNT], [(func, "value", -, T)]
    otherwise.  When [analyze] returns a non-empty sequence, it is this
    buffer, and it ends with [SELECT], [OUTPUT] and [END], so the aggregate
    quadruples come before the final [SELECT].  The temporary stands in the
    column list in place of the function: in the [arg1] of that [SELECT],
    the temporary of an aggregate node after which no wildcard comes is
    followed by the entries of the children that come after the node, and
    without any wildcard the [arg1] is the list of the names of the
    identifiers and the temporaries of the aggregates, in order.  Analysing
    one aggregate node issues the next temporary, appends that one
    quadruple, and makes the temporary the last item of the column list. *)
Theorem aggregate_functions_emit ast w :
  type ast = SELECT_STMT →
  (∃ rest,
     quadruples (self (analyze ast w).2) =
       BEGIN :: imap (λ i c, aggregate_quadruple (value c) (temp_name (S i)))
                     (aggregate_nodes ast) ++ rest) ∧
  (∀ qs, (analyze ast w).1 = Returned qs → qs ≠ [] →
     ∃ mid cols table t,
       qs = BEGIN :: imap (λ i c, aggregate_quadruple (value c) (temp_name (S i)))
                          (aggregate_nodes ast) ++
                     mid ++ [SELECT cols table t; OUTPUT t; END] ∧
       (no_wildcard ast → cols = PList (select_entries ast)) ∧
       (∀ cl pre a post,
          first_column_list ast = Some cl →
          children cl = pre ++ a :: post →
          type a = AGGREGATE_FUNCTION →
          Forall (λ c, ¬ is_wildcard c) post →
          ∃ before,
            cols =
              PList (before ++
                     Some (temp_name
                             (S (length (filter (λ c, type c = AGGREGATE_FUNCTION) pre))))
                     :: column_entries
                          (S (length (filter (λ c, type c = AGGREGATE_FUNCTION) pre)))
                          post))) ∧
  (∀ info child w0,
     type child = AGGREGATE_FUNCTION →
     let t := temp_name (S (temp_counter (self w0))) in
     (column_list_step info child w0).1 =
       Returned {| columns :=
                     PList (match columns info with
                            | PList items => items
                            | _ => []
                            end ++ [Some t]);
                   aggregates := aggregates info ++ [(value child, t)];
                   has_aggregates := true |} ∧
     quadruples (self (column_list_step info child w0).2) =
       quadruples (self w0) ++ [aggregate_quadruple (value child) t] ∧
     temp_counter (self (column_list_step info child w0).2) =
       S (temp_counter (self w0)) ∧
     issued (column_list_step info child w0).2 = issued w0 ++ [t]).
Proof.
  intros Ht.
  destruct (analyze_select_shape ast w Ht)
    as (si0 & w20 & w30 & w40 & late & _ & _ & _ & _ & Hcases).
  change (imap (λ i c, aggregate_quadruple (value c) (temp_name (S i)))
               (aggregate_nodes ast))
    with (aggregate_quadruples 0 (aggregate_nodes ast)).
  split; [|split].
  - destruct Hcases as [(w5 & t & _ & _ & Hq & _)|(e & w5 & _ & _ & Hq)];
      rewrite Hq; by eexists.
  - clear Hcases. intros qs Hr Hne.
    destruct (analyze_success ast w qs Ht Hr Hne)
      as (ti & w2 & si & w3 & ti' & w4 & w5 & E2 & _ & E5 & Hn2 & Hq4 & -> & _).
    pose proof (extends_later_clauses ast w4) as (_ & _ & [late' Hlate] & _).
    rewrite E5 in Hlate. simpl in Hlate.
    exists (join_quadruples (main_table_of ast) (length (aggregate_nodes ast))
              (filter emits_join (children ast)) ++ late').
    exists (columns si), (of_optional (main_table_of ast)),
      (temp_name (S (temp_counter (self w5)))).
    split; [|split].
    + rewrite Hlate, Hq4. simpl. by rewrite <- !app_assoc.
    + revert E2. unfold _analyze_select_list, no_wildcard, select_entries,
        first_column_list.
      rewrite select_list_loop_first.
      destruct (head (filter _ (children ast))) as [cl|].
      * unfold _analyze_column_list. intros E2 Hnw.
        destruct (column_list_entries (children cl)
                    (mkSelectInfo (PList []) [] false) w2 [] eq_refl Hnw)
          as (info' & w' & E & Hcols).
        rewrite E in E2. injection E2 as <- <-. by rewrite Hcols, Hn2.
      * by intros [= <- <-] _.
    + intros cl pre a post Hcl Hcs Ha Hpost.
      revert E2. unfold _analyze_select_list. rewrite select_list_loop_first.
      unfold first_column_list in Hcl. rewrite Hcl.
      unfold _analyze_column_list. rewrite Hcs. intros E2.
      destruct (column_list_aggregate_entry _ _ _ _ _ _ _ Ha Hpost E2)
        as [before Hcols].
      exists before. by rewrite Hcols, Hn2.
  - intros info child w0 Hc t.
    rewrite (column_list_step_aggregate info child w0 Hc). simpl.
    by rewrite append_column_last.
Qed.

Lemma aggregate_functions_emit_witness :
  type scenario2 = SELECT_STMT ∧
  (∃ rest,
     quadruples (self (analyze scenario2 fresh_world).2) =
       BEGIN :: imap (λ i c, aggregate_quadruple (value c) (temp_name (S i)))
                     (aggregate_nodes scenario2) ++ rest) ∧
  ∃ mid cols table t,
    default [] (returned (analyze scenario2 fresh_world)) =
      BEGIN :: imap (λ i c, aggregate_quadruple (value c) (temp_name (S i)))
                    (aggregate_nodes scenario2) ++
        mid ++ [SELECT cols table t; OUTPUT t; END] ∧
    cols = PList [Some (temp_name 1); Some (temp_name 2)].
Proof.
  split; [reflexivity|].
  destruct (aggregate_functions_emit scenario2 fresh_world eq_refl)
    as (Hbuf & Hret & _).
  split; [exact Hbuf|].
  destruct (Hret (default [] (returned (analyze scenario2 fresh_world))))
    as (mid & cols & table & t & Hq & Hnw & _); [by vm_compute | by vm_compute |].
  exists mid, cols, table, t. split; [exact Hq|].
  apply Hnw. repeat constructor; intros [? ?]; discriminate.
Defined.

(** C9, amended. The join clauses for which quadruples are emitted are
    the [JOIN_CLAUSE] children whose last table-name child carries a
    non-empty name and which have an [ON_CLAUSE] child.  After [BEGIN] and
    the aggregate quadruples the buffer holds, for each of them in order, a
    [JOIN] quadruple (main table, joined table, the next fresh temporary)
    immediately followed by the [ON] quadruple
    [(ON, table1.id, table2.id, EQ)]; nothing that follows is a [JOIN] or
    [ON] quadruple, so the other join clauses emit neither.  A non-empty
    sequence returned by [analyze] is this buffer. *)
Theorem join_clauses_emit ast w :
  type ast = SELECT_STMT →
  ∃ rest,
    quadruples (self (analyze ast w).2) =
      BEGIN :: aggregate_quadruples 0 (aggregate_nodes ast) ++
        concat (imap (λ i j,
                  [JOIN (main_table_of ast) (joined_table j)
                        (temp_name (S (length (aggregate_nodes ast) + i)));
                   ON])
                (filter emits_join (children ast))) ++
        rest ∧
    Forall not_join rest ∧
    ∀ qs, (analyze ast w).1 = Returned qs → qs ≠ [] →
          qs = quadruples (self (analyze ast w).2).
Proof.
  intros Ht.
  destruct (analyze_select_shape ast w Ht)
    as (si & w2 & w3 & w4 & late & _ & _ & _ & Hnj & Hcases).
  fold (join_quadruples (main_table_of ast) (length (aggregate_nodes ast))
          (filter emits_join (children ast))).
  destruct Hcases as [(w5 & t & _ & Hr & Hq & _)|(e & w5 & _ & Hr & Hq)].
  - exists (late ++ [SELECT (columns si) (of_optional (main_table_of ast)) t;
                     OUTPUT t; END]).
    split; [done|]. split.
    + apply Forall_app. split; [done|].
      repeat (apply Forall_cons; split; [by split|]). constructor.
    + intros qs Hqs _. rewrite Hr in Hqs. by injection Hqs as <-.
  - exists late. split; [done|]. split; [done|].
    intros qs Hqs Hne. rewrite Hr in Hqs. by injection Hqs as <-.
Qed.

Lemma join_clauses_emit_witness :
  type select_with_join = SELECT_STMT ∧
  ∃ rest,
    quadruples (self (analyze select_with_join fresh_world).2) =
      BEGIN :: aggregate_quadruples 0 (aggregate_nodes select_with_join) ++
        concat (imap (λ i j,
                  [JOIN (main_table_of select_with_join) (joined_table j)
                        (temp_name (S (length (aggregate_nodes select_with_join) + i)));
                   ON])
                (filter emits_join (children select_with_join))) ++
        rest ∧
    Forall not_join rest.
Proof.
  split; [reflexivity|].
  destruct (join_clauses_emit select_with_join fresh_world eq_refl)
    as (rest & Hq & Hnj & _).
  by exists rest.
Defined.

(** C9 as stated fails: the join clause has a table-name child and an
    [ON_CLAUSE] child, and no [JOIN] quadruple is emitted. *)
Lemma unnamed_join_table_emits_nothing :
  type select_with_unnamed_join = SELECT_STMT ∧
  (∃ j, j ∈ children select_with_unnamed_join ∧ type j = JOIN_CLAUSE ∧
        (∃ c, c ∈ children j ∧ type c = TABLE_NAME) ∧
        (∃ c, c ∈ children j ∧ type c = ON_CLAUSE)) ∧
  returned (analyze select_with_unnamed_join fresh_world) =
    Some [BEGIN; SELECT (PList []) (PStr "orders") "T1"; OUTPUT "T1"; END] ∧
  quadruples (self (analyze select_with_unnamed_join fresh_world).2) =
    [BEGIN; SELECT (PList []) (PStr "orders") "T1"; OUTPUT "T1"; END].
Proof.
  split; [reflexivity|]. split; [|split; by vm_compute].
  exists (Node JOIN_CLAUSE None [Node TABLE_NAME None []; Node ON_CLAUSE None []]).
  split; [right; by left|]. split; [reflexivity|]. split.
  - eexists. split; [by left | reflexivity].
  - eexists. split; [right; by left | reflexivity].
Qed.

(** C10, amended. A select statement with no table-name child, no
    [WHERE_CLAUSE] or [HAVING_CLAUSE] child, and in which every identifier
    under a [GROUP_BY_CLAUSE] child carries a name, is analysed without
    error: [analyze] returns a sequence from [BEGIN] to [END] whose final
    [SELECT] quadruple has [None] as [arg2], nothing is reported, and the
    symbol table is left as it was. *)
Theorem missing_from_is_not_an_error ast w :
  type ast = SELECT_STMT →
  Forall (λ c, type c ≠ TABLE_NAME) (children ast) →
  Forall (λ c, type c ≠ WHERE_CLAUSE) (children ast) →
  Forall (λ c, type c ≠ HAVING_CLAUSE) (children ast) →
  group_by_named ast →
  (∃ mid cols t,
     (analyze ast w).1 =
       Returned (BEGIN :: mid ++ [SELECT cols PNone t; OUTPUT t; END])) ∧
  reported (analyze ast w).2 = reported w ∧
  symbol_table (self (analyze ast w).2) = symbol_table (self w).
Proof.
  intros Ht Htn Hw Hh Hg.
  destruct (analyze_select_shape ast w Ht)
    as (si & w2 & w3 & w4 & late & _ & Hs4 & Hs2 & _ & Hcases).
  destruct (later_clauses_returns ast w4 Hw Hh Hg) as [w5' E5].
  destruct Hcases as [(w5 & t & _ & Hr & Hq & Hrep & Hsym)|(e & w5 & E & _)];
    [|congruence].
  split; [|split; [done|]].
  - rewrite Hr, Hq.
    assert (main_table_of ast = None) as ->.
    { unfold main_table_of. by rewrite (filter_none _ _ Htn). }
    exists (aggregate_quadruples 0 (aggregate_nodes ast) ++
            join_quadruples None (length (aggregate_nodes ast))
              (filter emits_join (children ast)) ++ late).
    eexists _, _. by rewrite <- !app_assoc.
  - rewrite Hsym, Hs4. by apply Hs2.
Qed.

Lemma missing_from_is_not_an_error_witness :
  (∃ mid cols t,
     (analyze select_without_from fresh_world).1 =
       Returned (BEGIN :: mid ++ [SELECT cols PNone t; OUTPUT t; END])) ∧
  reported (analyze select_without_from fresh_world).2 = reported fresh_world ∧
  symbol_table (self (analyze select_without_from fresh_world).2) =
    symbol_table (self fresh_world).
Proof.
  apply (missing_from_is_not_an_error select_without_from fresh_world).
  - reflexivity.
  - repeat constructor; discriminate.
  - repeat constructor; discriminate.
  - repeat constructor; discriminate.
  - repeat constructor; discriminate.
Defined.

(** C10 as stated fails: the statement has no table-name, [WHERE_CLAUSE]
    or [HAVING_CLAUSE] child, and the analysis is aborted by the [TypeError]
    of [str.join]; the returned sequence is empty and has no [SELECT]
    quadruple. *)
Lemma group_by_unnamed_aborts :
  type select_group_by_unnamed = SELECT_STMT ∧
  Forall (λ c, type c ≠ TABLE_NAME ∧ type c ≠ WHERE_CLAUSE ∧
               type c ≠ HAVING_CLAUSE) (children select_group_by_unnamed) ∧
  returned (analyze select_group_by_unnamed fresh_world) = Some [] ∧
  reported (analyze select_group_by_unnamed fresh_world).2 =
    [TypeError join_item_not_str].
Proof.
  split; [reflexivity|]. split; [|split; by vm_compute].
  repeat constructor; discriminate.
Qed.

(** ** Further properties *)

(** X1. Looking a name up after [add_symbol] gives the symbol just added
    under its own name, and what the table held before under any other
    name. *)
Theorem lookup_add_symbol symbol symbols name :
  SymbolTable.lookup name (SymbolTable.add_symbol symbol symbols) =
    if decide (name = sym_name symbol) then Some symbol
    else SymbolTable.lookup name symbols.
Proof.
  unfold SymbolTable.lookup, SymbolTable.add_symbol, SymbolTable.t in *.
  destruct (decide (name = sym_name symbol)) as [->|Hne].
  - apply lookup_insert_eq.
  - by apply lookup_insert_ne.
Qed.

(** X2. Adding a symbol under a name that is already bound overwrites the
    earlier symbol: the table is the one obtained by adding the later symbol
    alone, and it does not grow. *)
Theorem add_symbol_overwrites s1 s2 symbols :
  sym_name s1 = sym_name s2 →
  SymbolTable.add_symbol s2 (SymbolTable.add_symbol s1 symbols) =
    SymbolTable.add_symbol s2 symbols ∧
  size (SymbolTable.add_symbol s2 (SymbolTable.add_symbol s1 symbols)) =
    size (SymbolTable.add_symbol s1 symbols).
Proof.
  intros Hn. unfold SymbolTable.add_symbol, SymbolTable.t in *. rewrite Hn.
  rewrite insert_insert_eq. split; [done|].
  destruct (symbols !! sym_name s2) as [s|] eqn:E.
  - by rewrite !map_size_insert_Some.
  - by rewrite !map_size_insert_None.
Qed.

Lemma add_symbol_overwrites_witness :
  SymbolTable.add_symbol (mkSymbol (Some "t") "TABLE" "LOCAL" 3 4)
    (SymbolTable.add_symbol (table_symbol (Some "t")) SymbolTable.empty) =
  SymbolTable.add_symbol (mkSymbol (Some "t") "TABLE" "LOCAL" 3 4) SymbolTable.empty.
Proof.
  exact (proj1 (add_symbol_overwrites (table_symbol (Some "t"))
                  (mkSymbol (Some "t") "TABLE" "LOCAL" 3 4)
                  SymbolTable.empty eq_refl)).
Defined.

(** X3. After [analyze] on a select statement, whether the pass completes
    or is aborted, the symbol table binds the name of every [TABLE_NAME]
    child of the root to a [TABLE] symbol of scope [GLOBAL] at line 0,
    column 0, and binds every other name as it did before the call: the
    tables of join clauses are not registered. *)
Theorem analyze_registers_from_tables ast w name :
  type ast = SELECT_STMT →
  SymbolTable.lookup name (symbol_table (self (analyze ast w).2)) =
    if decide (name ∈ table_names ast)
    then Some {| sym_name := name; sym_type := "TABLE"; sym_scope := "GLOBAL";
                 sym_line := 0; sym_column := 0 |}
    else SymbolTable.lookup name (symbol_table (self w)).
Proof. intros Ht. by apply analyze_symbol_table. Qed.

Lemma analyze_registers_from_tables_witness :
  SymbolTable.lookup (Some "orders")
    (symbol_table (self (analyze select_with_join fresh_world).2)) =
    Some (table_symbol (Some "orders")) ∧
  SymbolTable.lookup (Some "customers")
    (symbol_table (self (analyze select_with_join fresh_world).2)) = None.
Proof.
  split.
  - exact (analyze_registers_from_tables select_with_join fresh_world
             (Some "orders") eq_refl).
  - exact (analyze_registers_from_tables select_with_join fresh_world
             (Some "customers") eq_refl).
Defined.

(** X4. [analyze] never removes a binding from the symbol table, whatever
    the root: the table is not reset by a call and carries over from one
    call to the next on the same analyzer. *)
Theorem analyze_keeps_bindings ast w name :
  is_Some (SymbolTable.lookup name (symbol_table (self w))) →
  is_Some (SymbolTable.lookup name (symbol_table (self (analyze ast w).2))).
Proof.
  intros Hs. destruct (decide (type ast = SELECT_STMT)) as [Ht|Ht].
  - unfold SymbolTable.lookup, SymbolTable.t in *.
    rewrite (analyze_symbol_table ast w name Ht).
    by destruct (decide _).
  - by rewrite (analyze_other _ _ Ht).
Qed.

Lemma analyze_keeps_bindings_witness :
  is_Some (SymbolTable.lookup (Some "students")
             (symbol_table (self (analyze select_with_join
                                    (analyze scenario1 fresh_world).2).2))).
Proof.
  apply (analyze_keeps_bindings select_with_join
           (analyze scenario1 fresh_world).2 (Some "students")).
  vm_compute. by eexists.
Defined.

(** X5. The analysis of a select statement returns a non-empty sequence
    exactly when the root has no [WHERE_CLAUSE] child, no [HAVING_CLAUSE]
    child, and every identifier under its [GROUP_BY_CLAUSE] children carries
    a name; in every other case it returns the empty list. *)
Theorem analysis_completes_iff ast w :
  type ast = SELECT_STMT →
  ((analyze ast w).1 ≠ Returned [] ↔
   Forall (λ c, type c ≠ WHERE_CLAUSE) (children ast) ∧
   Forall (λ c, type c ≠ HAVING_CLAUSE) (children ast) ∧
   group_by_named ast) ∧
  ((analyze ast w).1 ≠ Returned [] →
   ∃ mid cols table t,
     (analyze ast w).1 =
       Returned (BEGIN :: mid ++ [SELECT cols table t; OUTPUT t; END])).
Proof.
  intros Ht. pose proof (analyze_select_outcome ast w Ht) as Hout.
  unfold aborting_error in Hout.
  destruct (decide (Exists (λ c, type c = WHERE_CLAUSE) (children ast)))
    as [Hw|Hw].
  { destruct Hout as [Hr _]. split; [|done]. split; [done|].
    intros (Hall & _). exfalso. apply Exists_exists in Hw as (c & Hin & Hc).
    rewrite Forall_forall in Hall. by apply (Hall c). }
  apply Exists_or_Forall_not in Hw.
  destruct (decide (group_by_named ast)) as [Hg|Hg].
  - destruct (decide (Exists (λ c, type c = HAVING_CLAUSE) (children ast)))
      as [Hh|Hh].
    + destruct Hout as [Hr _]. split; [|done]. split; [done|].
      intros (_ & Hall & _). exfalso. apply Exists_exists in Hh as (c & Hin & Hc).
      rewrite Forall_forall in Hall. by apply (Hall c).
    + apply Exists_or_Forall_not in Hh.
      destruct Hout as [(mid & cols & table & t & Hr) _].
      split; [|by eauto]. split; [done|]. intros _. by rewrite Hr.
  - destruct Hout as [Hr _]. split; [|done]. split; [done|]. by intros (_ & _ & ?).
Qed.

Lemma analysis_completes_iff_witness :
  (analyze scenario3 fresh_world).1 ≠ Returned [] ↔
  Forall (λ c, type c ≠ WHERE_CLAUSE) (children scenario3) ∧
  Forall (λ c, type c ≠ HAVING_CLAUSE) (children scenario3) ∧
  group_by_named scenario3.
Proof.
  exact (proj1 (analysis_completes_iff scenario3 fresh_world eq_refl)).
Defined.

(** X6. What the handler of [analyze] reports for a select statement is
    decided by the first clause that fails, in the order [WHERE],
    [GROUP BY], [HAVING]: the [TypeError] of the five-argument call for a
    [WHERE_CLAUSE] child; failing that, the [TypeError] of [str.join] for a
    nameless identifier under [GROUP BY]; failing that, the five-argument
    [TypeError] for a [HAVING_CLAUSE] child; and nothing otherwise. *)
Theorem analysis_reports_first_failure ast w :
  type ast = SELECT_STMT →
  reported (analyze ast w).2 =
    reported w ++
      match aborting_error ast with Some e => [e] | None => [] end.
Proof.
  intros Ht. pose proof (analyze_select_outcome ast w Ht) as Hout.
  destruct (aborting_error ast) as [e|].
  - by destruct Hout as [_ ->].
  - destruct Hout as [_ ->]. by rewrite app_nil_r.
Qed.

Lemma analysis_reports_first_failure_witness :
  reported (analyze select_group_by_unnamed fresh_world).2 =
    reported fresh_world ++
      match aborting_error select_group_by_unnamed with
      | Some e => [e] | None => []
      end.
Proof.
  exact (analysis_reports_first_failure select_group_by_unnamed fresh_world eq_refl).
Defined.

(** X7. A non-empty sequence returned for a select statement holds, in this
    order: [BEGIN]; the aggregate quadruples; the [JOIN]/[ON] pairs; only
    [GROUP_BY] quadruples; only [ORDER_BY] quadruples; then [SELECT] on the
    main table (the name of the last [TABLE_NAME] child of the root, [None]
    without one), [OUTPUT] and [END].  The clauses [WHERE] and [HAVING]
    contribute nothing to it. *)
Theorem clause_order ast w qs :
  type ast = SELECT_STMT →
  (analyze ast w).1 = Returned qs →
  qs ≠ [] →
  ∃ gs os cols t,
    qs = BEGIN :: aggregate_quadruples 0 (aggregate_nodes ast) ++
           join_quadruples (main_table_of ast) (length (aggregate_nodes ast))
             (filter emits_join (children ast)) ++
           gs ++ os ++
           [SELECT cols (of_optional (main_table_of ast)) t; OUTPUT t; END] ∧
    Forall is_group_by gs ∧ Forall is_order_by os.
Proof.
  intros Ht Hr Hne.
  destruct (analyze_success ast w qs Ht Hr Hne)
    as (ti & w2 & si & w3 & ti' & w4 & w5 & _ & _ & E5 & _ & Hq4 & -> & _).
  destruct (later_clauses_Returned _ _ _ E5) as (gs & os & Hq5 & Hg & Ho).
  exists gs, os, (columns si), (temp_name (S (temp_counter (self w5)))).
  split; [|done]. rewrite Hq5, Hq4. simpl. by rewrite <- !app_assoc.
Qed.

Lemma clause_order_witness :
  ∃ gs os cols t,
    default [] (returned (analyze scenario3 fresh_world)) =
      BEGIN :: aggregate_quadruples 0 (aggregate_nodes scenario3) ++
        join_quadruples (main_table_of scenario3)
          (length (aggregate_nodes scenario3))
          (filter emits_join (children scenario3)) ++
        gs ++ os ++
        [SELECT cols (of_optional (main_table_of scenario3)) t; OUTPUT t; END] ∧
    Forall is_group_by gs ∧ Forall is_order_by os.
Proof.
  apply (clause_order scenario3 fresh_world).
  - reflexivity.
  - by vm_compute.
  - by vm_compute.
Defined.

(** X8. The result of the final [SELECT] quadruple, which [OUTPUT] reads,
    is the last temporary of the pass: it is [T<k>] for the value [k] that
    the temporary counter has when [analyze] returns; the temporaries that
    the quadruples of the returned sequence define are [T1 .. Tk] in order,
    so that [T<k>] is the last of them, as it is the last one issued; and
    [k] is larger than the number of aggregate nodes plus the number of join
    clauses that emit quadruples. *)
Theorem select_result_is_last_temporary ast w qs :
  type ast = SELECT_STMT →
  (analyze ast w).1 = Returned qs →
  qs ≠ [] →
  let k := temp_counter (self (analyze ast w).2) in
  (∃ mid cols table,
     qs = BEGIN :: mid ++ [SELECT cols table (temp_name k);
                           OUTPUT (temp_name k); END]) ∧
  omap defines qs = temp_name <$> seq 1 k ∧
  last (omap defines qs) = Some (temp_name k) ∧
  last (issued (analyze ast w).2) = Some (temp_name k) ∧
  length (aggregate_nodes ast) + length (filter emits_join (children ast)) < k.
Proof.
  intros Ht Hr Hne k.
  destruct (analyze_success ast w qs Ht Hr Hne)
    as (ti & w2 & si & w3 & ti' & w4 & w5 & E2 & E3 & E5 & Hn2 & Hq4 & Hqs & Hk & Hi).
  destruct (select_list_spec _ _ _ _ E2) as (_ & Hn3).
  destruct (join_clauses_spec _ _ _ _ _ E3) as (_ & _ & Hn4).
  pose proof (extends_later_clauses ast w4) as (_ & _ & [late Hlate] & k5 & Hn5 & _).
  rewrite E5 in Hlate, Hn5. simpl in Hlate, Hn5.
  destruct (analyze_defines ast w) as (k' & _ & Hk' & _ & _ & Hd).
  specialize (Hd qs Hr Hne). fold k in Hk'. subst k'.
  assert (k = S (temp_counter (self w5))) as Hks by (by subst k).
  split; [|split; [done|split; [|split]]].
  - rewrite Hqs, Hks, Hlate, Hq4. eexists _, _, _. simpl. reflexivity.
  - rewrite Hd, Hks. apply temps_from_last.
  - rewrite Hi, Hks. by rewrite last_snoc.
  - lia.
Qed.

Lemma select_result_is_last_temporary_witness :
  omap defines (default [] (returned (analyze select_with_join fresh_world))) =
    temp_name <$> seq 1 (temp_counter (self (analyze select_with_join fresh_world).2)) ∧
  last (omap defines (default [] (returned (analyze select_with_join fresh_world)))) =
    Some (temp_name (temp_counter (self (analyze select_with_join fresh_world).2))).
Proof.
  destruct (select_result_is_last_temporary select_with_join fresh_world
              (default [] (returned (analyze select_with_join fresh_world)))
              eq_refl) as (_ & Hd & Hl & _); [by vm_compute | by vm_compute |].
  by split.
Defined.

(** X9. When the column list analysed holds no wildcard, the [arg1] of the
    final [SELECT] quadruple is the list of its entries in order: the name
    of each identifier and, in place of each aggregate function, the
    temporary [T(i+1)] of the i-th aggregate.  Only the first [COLUMN_LIST]
    child of the root is analysed; without one the list is empty (and not
    the wildcard). *)
Theorem select_lists_columns_in_order ast w qs :
  type ast = SELECT_STMT →
  no_wildcard ast →
  (analyze ast w).1 = Returned qs →
  qs ≠ [] →
  ∃ mid table t,
    qs = BEGIN :: mid ++ [SELECT (PList (select_entries ast)) table t;
                          OUTPUT t; END].
Proof.
  intros Ht Hnw Hr Hne.
  destruct (analyze_success ast w qs Ht Hr Hne)
    as (ti & w2 & si & w3 & ti' & w4 & w5 & E2 & _ & E5 & Hn2 & Hq4 & -> & _).
  assert (columns si = PList (select_entries ast)) as ->.
  { revert E2 Hnw. unfold _analyze_select_list, no_wildcard, select_entries,
      first_column_list.
    rewrite select_list_loop_first.
    destruct (head (filter _ (children ast))) as [cl|].
    - unfold _analyze_column_list. intros E2 Hnw.
      destruct (column_list_entries (children cl)
                  (mkSelectInfo (PList []) [] false) w2 [] eq_refl Hnw)
        as (info' & w' & E & Hcols).
      rewrite E in E2. injection E2 as <- <-. by rewrite Hcols, Hn2.
    - by intros [= <- <-] _. }
  pose proof (extends_later_clauses ast w4) as (_ & _ & [late Hlate] & _).
  rewrite E5 in Hlate. simpl in Hlate. rewrite Hlate, Hq4.
  eexists _, _, _. simpl. reflexivity.
Qed.

Lemma select_lists_columns_in_order_witness :
  ∃ mid table t,
    default [] (returned (analyze scenario3 fresh_world)) =
      BEGIN :: mid ++ [SELECT (PList [Some "major"; Some "T1"]) table t;
                       OUTPUT t; END].
Proof.
  apply (select_lists_columns_in_order scenario3 fresh_world).
  - reflexivity.
  - repeat constructor; intros [? ?]; discriminate.
  - by vm_compute.
  - by vm_compute.
Defined.

(** X10. The direction of an order specification is ["ASC"] or ["DESC"]:
    it is the value of the last identifier child whose value is exactly
    ["ASC"] or ["DESC"], and ["ASC"] when there is none (other identifier
    values, such as lower-case ["desc"], are ignored). *)
Theorem order_direction_is_last_word spec :
  order_direction spec = default "ASC" (last (direction_words spec)) ∧
  (order_direction spec = "ASC" ∨ order_direction spec = "DESC").
Proof.
  destruct (order_direction_last spec) as [Hd Hall]. split; [done|].
  rewrite Hd. destruct (last (direction_words spec)) as [v|] eqn:El; [|by left].
  rewrite Forall_forall in Hall. apply Hall. simpl.
  apply last_Some in El as [l ->]. apply elem_of_app. right. by left.
Qed.

(** X11. The analysis of the [ORDER BY] clauses never raises, not even for
    an order specification without a column name (rendered as ["None"]).
    It appends one [ORDER_BY] quadruple for each [ORDER_BY_CLAUSE] child
    that has an [ORDER_SPEC] child, in order: its [arg1] is the
    comma-separated list of ["<column> <direction>"] of the clause's order
    specifications and its result the next fresh temporary.  A clause
    without order specifications appends nothing and uses no temporary. *)
Theorem order_by_clause_appends node w :
  ∃ w',
    _analyze_order_by_clause node w = (Returned tt, w') ∧
    quadruples (self w') =
      quadruples (self w) ++
        order_by_quadruples (temp_counter (self w))
          (filter emits_order (children node)) ∧
    temp_counter (self w') =
      temp_counter (self w) + length (filter emits_order (children node)).
Proof.
  unfold _analyze_order_by_clause, for_each.
  revert w. induction (children node) as [|c cs IH]; intros w.
  - exists w. unfold order_by_quadruples. simpl.
    by rewrite app_nil_r, Nat.add_0_r.
  - cbn [fold_each]. destruct (decide (type c = ORDER_BY_CLAUSE)) as [Hc|Hc].
    + destruct (order_specs c) as [|x l] eqn:Es.
      * unfold bind at 1, ret at 1.
        rewrite filter_cons_False; [apply IH|].
        intros [_ Hex]. by apply order_specs_nil in Es.
      * rewrite (bind_Returned _ _ _ _ _ (order_by_emit_run _ w)).
        rewrite filter_cons_True.
        2:{ split; [done|].
            destruct (decide (Exists (λ g, type g = ORDER_SPEC) (children c)))
              as [|Hno]; [done|].
            apply order_specs_nil in Hno. congruence. }
        edestruct IH as (w' & -> & Hq & Hn). exists w'. split; [done|].
        rewrite Hq, Hn. simpl. rewrite <- app_assoc.
        unfold order_by_quadruples. simpl. rewrite Nat.add_0_r.
        rewrite <- order_specs_map, Es. split; [|lia]. do 2 f_equal.
        apply imap_ext. intros i y _. simpl. do 2 f_equal. lia.
    + unfold bind at 1, ret at 1.
      rewrite filter_cons_False; [apply IH|]. by intros [? _].
Qed.

(** X12. For a statement with one [GROUP_BY_CLAUSE] child whose identifier
    children carry the names [strs], the analysis of [GROUP BY] returns the
    group information with these columns and [has_group_by] set; it appends
    exactly one quadruple [(GROUP_BY, ",".join(strs), None, T)] with the next
    fresh temporary when [strs] is not empty, and nothing when the clause
    names no column. *)
Theorem group_by_single_clause node g strs w :
  filter (λ c, type c = GROUP_BY_CLAUSE) (children node) = [g] →
  group_by_names g = Some <$> strs →
  ∃ gi w',
    _analyze_group_by_clause node w = (Returned gi, w') ∧
    group_columns gi = Some <$> strs ∧
    has_group_by gi = true ∧
    quadruples (self w') =
      quadruples (self w) ++
        (if decide (strs = []) then []
         else [GROUP_BY (String.concat "," strs)
                        (temp_name (S (temp_counter (self w))))]).
Proof.
  intros Hf Hn.
  assert (group_by_named node) as Hnamed.
  { unfold group_by_named. apply Forall_forall. intros c Hin Hc.
    assert (c ∈ filter (λ c, type c = GROUP_BY_CLAUSE) (children node)) as Hin'
      by (by apply list_elem_of_filter).
    rewrite Hf in Hin'. apply list_elem_of_singleton in Hin' as ->.
    apply named_group_by_names. rewrite Hn. apply Forall_fmap.
    apply Forall_true. intros s. by eexists. }
  destruct (group_by_clause_spec node w Hnamed) as (gi & w' & E & Hg & Hh & Hq).
  exists gi, w'. split; [done|]. rewrite Hf in Hg, Hh, Hq. simpl in Hg, Hh, Hq.
  rewrite app_nil_r in Hg. rewrite Hn in Hg, Hq.
  split; [done|]. split; [done|]. rewrite Hq. f_equal.
  destruct strs as [|s strs]; [done|]. simpl. by rewrite omap_id_Some.
Qed.

Lemma group_by_single_clause_witness :
  ∃ gi w',
    _analyze_group_by_clause scenario3 fresh_world = (Returned gi, w') ∧
    group_columns gi = [Some "major"] ∧
    has_group_by gi = true ∧
    quadruples (self w') = [GROUP_BY "major" "T1"].
Proof.
  exact (group_by_single_clause scenario3
           (Node GROUP_BY_CLAUSE None [leaf IDENTIFIER "major"]) ["major"]
           fresh_world eq_refl eq_refl).
Defined.

(** X13. The columns of [GROUP BY] accumulate from one clause to the next:
    for a statement with two [GROUP_BY_CLAUSE] children naming [strs1] (not
    empty) and [strs2], two quadruples are appended, and the [arg1] of the
    second lists the columns of the first clause followed by those of the
    second. *)
Theorem group_by_columns_accumulate node g1 g2 strs1 strs2 w :
  filter (λ c, type c = GROUP_BY_CLAUSE) (children node) = [g1; g2] →
  group_by_names g1 = Some <$> strs1 →
  group_by_names g2 = Some <$> strs2 →
  strs1 ≠ [] →
  ∃ gi w',
    _analyze_group_by_clause node w = (Returned gi, w') ∧
    quadruples (self w') =
      quadruples (self w) ++
        [GROUP_BY (String.concat "," strs1)
                  (temp_name (S (temp_counter (self w))));
         GROUP_BY (String.concat "," (strs1 ++ strs2))
                  (temp_name (S (S (temp_counter (self w)))))].
Proof.
  intros Hf Hn1 Hn2 Hne.
  assert (group_by_named node) as Hnamed.
  { unfold group_by_named. apply Forall_forall. intros c Hin Hc.
    assert (c ∈ filter (λ c, type c = GROUP_BY_CLAUSE) (children node)) as Hin'
      by (by apply list_elem_of_filter).
    rewrite Hf in Hin'. apply named_group_by_names.
    apply elem_of_cons in Hin' as [->|Hin'];
      [|apply list_elem_of_singleton in Hin' as ->].
    - rewrite Hn1. apply Forall_fmap, Forall_true. intros s. by eexists.
    - rewrite Hn2. apply Forall_fmap, Forall_true. intros s. by eexists. }
  destruct (group_by_clause_spec node w Hnamed) as (gi & w' & E & _ & _ & Hq).
  exists gi, w'. split; [done|]. rewrite Hq, Hf. f_equal.
  destruct strs1 as [|s strs1]; [done|].
  cbn [group_by_quadruples]. rewrite Hn1. cbn [app fmap list_fmap].
  rewrite Hn2. rewrite <- fmap_app.
  change (Some s :: (Some <$> strs1 ++ strs2)) with (Some <$> (s :: strs1 ++ strs2)).
  change (Some s :: (Some <$> strs1)) with (Some <$> (s :: strs1)).
  by rewrite !omap_id_Some.
Qed.

Lemma group_by_columns_accumulate_witness :
  ∃ gi w',
    _analyze_group_by_clause
      (Node SELECT_STMT None
         [Node GROUP_BY_CLAUSE None [leaf IDENTIFIER "major"];
          Node GROUP_BY_CLAUSE None [leaf IDENTIFIER "year"]])
      fresh_world = (Returned gi, w') ∧
    quadruples (self w') =
      [GROUP_BY "major" "T1"; GROUP_BY "major,year" "T2"].
Proof.
  exact (group_by_columns_accumulate
           (Node SELECT_STMT None
              [Node GROUP_BY_CLAUSE None [leaf IDENTIFIER "major"];
               Node GROUP_BY_CLAUSE None [leaf IDENTIFIER "year"]])
           (Node GROUP_BY_CLAUSE None [leaf IDENTIFIER "major"])
           (Node GROUP_BY_CLAUSE None [leaf IDENTIFIER "year"])
           ["major"] ["year"] fresh_world eq_refl eq_refl eq_refl
           ltac:(discriminate)).
Defined.

(** X14. Adding to a select statement a child of a kind that no clause
    routine looks for (any kind other than table name, column list, join,
    where, group-by, having and order-by clause) changes nothing: [analyze]
    returns the same sequence and leaves the same state. *)
Theorem add_child_of_unknown_kind_is_ignored ast c w :
  type ast = SELECT_STMT →
  clause_kind (type c) = false →
  analyze (add_child ast c) w = analyze ast w.
Proof. apply analyze_add_child_unknown. Qed.

Lemma add_child_of_unknown_kind_is_ignored_witness :
  analyze (add_child scenario2 (leaf LITERAL "42")) fresh_world =
  analyze scenario2 fresh_world.
Proof.
  exact (add_child_of_unknown_kind_is_ignored scenario2 (leaf LITERAL "42")
           fresh_world eq_refl eq_refl).
Defined.

(** X15. A select statement none of whose children is of a kind that a
    clause routine looks for (in particular one without children) is
    analysed without error: the sequence returned is [BEGIN], a [SELECT] of
    the empty column list on no table, [OUTPUT] and [END], and [T1] is the
    only temporary. *)
Theorem select_without_clauses ast w :
  type ast = SELECT_STMT →
  Forall (λ c, clause_kind (type c) = false) (children ast) →
  (analyze ast w).1 =
    Returned [BEGIN; SELECT (PList []) PNone "T1"; OUTPUT "T1"; END].
Proof.
  destruct ast as [t v cs]. simpl. intros ->.
  induction cs as [|c cs IH] using rev_ind; intros Hall.
  - reflexivity.
  - apply Forall_app in Hall as [Hall Hc]. rewrite Forall_singleton in Hc.
    rewrite <- (IH Hall).
    change (Node SELECT_STMT v (cs ++ [c]))
      with (add_child (Node SELECT_STMT v cs) c).
    by rewrite (analyze_add_child_unknown (Node SELECT_STMT v cs) c w eq_refl Hc).
Qed.

Lemma select_without_clauses_witness :
  (analyze (Node SELECT_STMT None [leaf LITERAL "1"; leaf SUBQUERY "q"])
           fresh_world).1 =
    Returned [BEGIN; SELECT (PList []) PNone "T1"; OUTPUT "T1"; END].
Proof.
  apply (select_without_clauses
           (Node SELECT_STMT None [leaf LITERAL "1"; leaf SUBQUERY "q"])
           fresh_world eq_refl).
  by repeat constructor.
Defined.

(** X16. [analyze] generates no label: whatever the AST and whatever the
    analyzer held, the label counter is 0 when the call returns. *)
Theorem analyze_generates_no_label ast w :
  label_counter (self (analyze ast w).2) = 0.
Proof. by destruct (analyze_issued ast w) as (k & _ & _ & Hl). Qed.

(** X17. The main table is the table name that comes last: after a
    [TABLE_NAME] child has been added to a select statement, the final
    [SELECT] quadruple of a completed analysis has the name on that child
    as its [arg2], whatever table names the statement held before. *)
Theorem last_table_name_is_main_table ast c w qs :
  type ast = SELECT_STMT →
  type c = TABLE_NAME →
  (analyze (add_child ast c) w).1 = Returned qs →
  qs ≠ [] →
  ∃ mid cols t,
    qs = BEGIN :: mid ++ [SELECT cols (of_optional (value c)) t; OUTPUT t; END].
Proof.
  intros Ht Hc Hr Hne.
  destruct (analyze_success (add_child ast c) w qs Ht Hr Hne)
    as (ti & w2 & si & w3 & ti' & w4 & w5 & _ & _ & E5 & _ & Hq4 & -> & _).
  pose proof (extends_later_clauses (add_child ast c) w4)
    as (_ & _ & [late Hlate] & _).
  rewrite E5 in Hlate. simpl in Hlate.
  rewrite Hlate, Hq4, (main_table_of_add_child ast c Hc).
  eexists _, _, _. simpl. reflexivity.
Qed.

Lemma last_table_name_is_main_table_witness :
  ∃ mid cols t,
    default [] (returned (analyze (add_child scenario1 (leaf TABLE_NAME "courses"))
                            fresh_world)) =
      BEGIN :: mid ++ [SELECT cols (PStr "courses") t; OUTPUT t; END].
Proof.
  apply (last_table_name_is_main_table scenario1 (leaf TABLE_NAME "courses")
           fresh_world).
  - reflexivity.
  - reflexivity.
  - by vm_compute.
  - by vm_compute.
Defined.

(** X18. When the analysis is aborted by a [WHERE_CLAUSE] child, the
    empty list is returned while the analyzer's buffer keeps the partial
    result: [BEGIN], the aggregate quadruples and the join quadruples, and
    nothing else.  One temporary more than these quadruples define has been
    consumed, for the condition that no quadruple names. *)
Theorem aborted_pass_leaves_partial_buffer ast w :
  type ast = SELECT_STMT →
  Exists (λ c, type c = WHERE_CLAUSE) (children ast) →
  (analyze ast w).1 = Returned [] ∧
  quadruples (self (analyze ast w).2) =
    BEGIN :: aggregate_quadruples 0 (aggregate_nodes ast) ++
      join_quadruples (main_table_of ast) (length (aggregate_nodes ast))
        (filter emits_join (children ast)) ∧
  temp_counter (self (analyze ast w).2) =
    S (length (aggregate_nodes ast) + length (filter emits_join (children ast))).
Proof.
  intros Ht Hex.
  destruct (analyze_select_phases ast w Ht)
    as (ti & w2 & si & w3 & ti' & w4 & E1 & E2 & E3 & Ea).
  destruct (from_clause_spec _ _ _ _ E1) as (Hm1 & Hq1 & Hn1 & _).
  destruct (select_list_spec _ _ _ _ E2) as (Hq2 & Hn2).
  destruct (join_clauses_spec _ _ _ _ _ E3) as (Hm3 & Hq3 & Hn3).
  simpl in Hq1, Hn1.
  assert (later_clauses ast w4 =
            (Raised (TypeError too_many_positional_arguments),
             (_generate_temp w4).2)) as El.
  { unfold later_clauses.
    by rewrite (bind_Raised _ _ _ _ _ (where_clause_raises_world ast w4 Hex)). }
  rewrite El in Ea. rewrite Ea. simpl.
  split; [done|]. split.
  - rewrite Hq3, Hq2, Hq1, Hn2, Hn1, Hm1. simpl. by rewrite <- ?app_assoc.
  - rewrite Hn3, Hn2, Hn1. lia.
Qed.

Lemma aborted_pass_leaves_partial_buffer_witness :
  (analyze select_with_where fresh_world).1 = Returned [] ∧
  quadruples (self (analyze select_with_where fresh_world).2) =
    BEGIN :: aggregate_quadruples 0 (aggregate_nodes select_with_where) ++
      join_quadruples (main_table_of select_with_where)
        (length (aggregate_nodes select_with_where))
        (filter emits_join (children select_with_where)) ∧
  temp_counter (self (analyze select_with_where fresh_world).2) =
    S (length (aggregate_nodes select_with_where) +
       length (filter emits_join (children select_with_where))).
Proof.
  apply (aborted_pass_leaves_partial_buffer select_with_where fresh_world).
  - reflexivity.
  - simpl. do 2 apply Exists_cons_tl. by apply Exists_cons_hd.
Defined.

(** X19. Analysing the same AST a second time on the same analyzer leaves
    the symbol table as the first call left it, and returns what the first
    call returned: registering a table again overwrites its symbol by an
    equal one. *)
Theorem analyze_twice ast w :
  symbol_table (self (analyze ast (analyze ast w).2).2) =
    symbol_table (self (analyze ast w).2) ∧
  (analyze ast (analyze ast w).2).1 = (analyze ast w).1.
Proof.
  split; [|by apply analyze_independent].
  destruct (decide (type ast = SELECT_STMT)) as [Ht|Ht].
  - apply map_eq. intros name.
    rewrite (analyze_symbol_table ast (analyze ast w).2 name Ht).
    rewrite (analyze_symbol_table ast w name Ht).
    by destruct (decide _).
  - by rewrite !(analyze_other _ _ Ht).
Qed.
